(** * The synthetic-data generator and the tape lifecycle of the coupling tests

    A shallow embedding of [dataset_processing/generate_data.py]
    ([random_field], [generate_data], the [__main__] block) and of the two
    autouse fixtures of [tests/test_pytorch_coupling.py] ([handle_taping],
    [handle_annotation]).

    The repository is orchestration code over Firedrake, UFL, PETSc, NumPy and
    pyadjoint.  Those collaborators are not part of the repository: they enter
    the development as the fields of the class [Collaborators] (number
    type, random generators, interpolation, variational solver).  Their calls
    are taken to return; user-supplied callables, on the other hand, run in
    the monad of the program and may raise or change the world at will.

    What the program itself owns is modelled explicitly:
    - Python objects of class [Function] live in a heap indexed by object
      identity, so that two list entries naming the same object alias;
    - the module-level name [mesh] is a slot of the world that may be unbound;
    - checkpoint files are a finite map from paths to their contents;
    - a chronological log records every collaborator call with an effect.

    Progress bars and [print] are not modelled. *)

From Stdlib Require Import ZArith String List Reals Lia Lra.
From stdpp Require Import base gmap sets list strings.

Local Open Scope Z_scope.

(** ** Python-level notions *)

Inductive exn : Type :=
| NotImplementedError (msg : string)
| NameError (name : string)
| ValueError (msg : string)
| ZeroDivisionError
| AttributeError
| UserError (tag : string).

Inductive outcome (A : Type) : Type :=
| Ok (a : A)
| Raise (e : exn).
Arguments Ok {A} a.
Arguments Raise {A} e.

(** An argument that the code dispatches on with [== '...'] and [callable]:
    - [Str s] is the string [s];
    - [Callable f] is a function (a [def] or a [lambda]), which compares
      unequal to every string;
    - [Object eq call] is any other object: [eq s] is what the truth value
      of [obj == s] evaluates to, which may be an exception ([ValueError] for a
      NumPy array) or [True] for an object with its own [__eq__], and [call]
      is what calling the object does, if it is callable at all. *)
Inductive selector (C : Type) : Type :=
| Str (s : string)
| Callable (f : C)
| Object (eq : string -> outcome bool) (call : option C).
Arguments Str {C} s.
Arguments Callable {C} f.
Arguments Object {C} eq call.

(** Identity of a Python object. *)
Definition loc := nat.

(** ** UFL expressions, as the trees the code builds *)

Inductive ufl (float space : Type) : Type :=
| IntValue (n : Z)
| Pi
| ScalarValue (c : float)
| Constant (c : float)
| CoordX
| CoordY
| Coefficient (f : loc)
| TestFunction (V : space)
| Sum (a b : ufl float space)
| Diff (a b : ufl float space)
| Product (a b : ufl float space)
| Division (a b : ufl float space)
| Cos (a : ufl float space)
| Sin (a : ufl float space)
| Exp (a : ufl float space)
| Sqrt (a : ufl float space)
| Grad (a : ufl float space)
| Inner (a b : ufl float space).
Arguments IntValue {float space} n.
Arguments Pi {float space}.
Arguments ScalarValue {float space} c.
Arguments Constant {float space} c.
Arguments CoordX {float space}.
Arguments CoordY {float space}.
Arguments Coefficient {float space} f.
Arguments TestFunction {float space} V.
Arguments Sum {float space} a b.
Arguments Diff {float space} a b.
Arguments Product {float space} a b.
Arguments Division {float space} a b.
Arguments Cos {float space} a.
Arguments Sin {float space} a.
Arguments Exp {float space} a.
Arguments Sqrt {float space} a.
Arguments Grad {float space} a.
Arguments Inner {float space} a b.

(** [e * dx] *)
Inductive form (float space : Type) : Type :=
| IntegralDx (integrand : ufl float space).
Arguments IntegralDx {float space} integrand.

(** [DirichletBC(V, g, sub_domain)] *)
Record DirichletBC (float space : Type) : Type := mkDirichletBC {
  bc_space : space;
  bc_value : ufl float space;
  bc_sub_domain : string
}.
Arguments mkDirichletBC {float space}.
Arguments bc_space {float space}.
Arguments bc_value {float space}.
Arguments bc_sub_domain {float space}.

(** [solve(F == 0, u, bcs=..., solver_parameters=...)] *)
Record solve_call (float space : Type) : Type := mkSolve {
  residual : form float space;
  unknown : loc;
  bcs : list (DirichletBC float space);
  solver_parameters : gmap string string
}.
Arguments mkSolve {float space}.
Arguments residual {float space}.
Arguments unknown {float space}.
Arguments bcs {float space}.
Arguments solver_parameters {float space}.

(** ** The external collaborators *)

Class Collaborators : Type := {
  (* double-precision numbers and their arithmetic *)
  float : Type;
  fadd : float -> float -> float;
  fmul : float -> float -> float;
  (* the literal [d * 10^e] *)
  flit : Z -> Z -> float;
  (* the real number a finite float stands for *)
  f2r : float -> R;
  (* meshes and function spaces *)
  Mesh : Type;
  FunctionSpace : Type;
  RectangleMesh : Z -> Z -> float -> float -> string -> Mesh;
  mkFunctionSpace : Mesh -> string -> Z -> FunctionSpace;
  dim : FunctionSpace -> nat;
  (* numpy.random.Generator: [default_rng(seed)], [g.standard_normal(2)],
     [g.normal(loc, scale, 2)] *)
  Generator : Type;
  default_rng : Z -> Generator;
  standard_normal : Generator -> (float * float) * Generator;
  normal : Z -> float -> Generator -> (float * float) * Generator;
  (* the process-wide legacy generator behind [np.random.rand(n)] *)
  RandomState : Type;
  rand : nat -> RandomState -> list float * RandomState;
  rand_length : forall n s, length (fst (rand n s)) = n;
  (* coefficient vector of the interpolant of a coefficient-free expression *)
  interpolate_data : ufl float FunctionSpace -> FunctionSpace -> list float;
  interpolate_length : forall e V, length (interpolate_data e V) = dim V;
  (* coefficient vector the variational solver leaves in the unknown, given
     the coefficient vectors of the functions present *)
  solve_data : FunctionSpace -> gmap loc (list float) ->
               solve_call float FunctionSpace -> list float;
  solve_length : forall V h c, length (solve_data V h c) = dim V
}.

Section Generator.
Context `{Collab : Collaborators}.

Definition vec : Type := list float.
Definition expr : Type := ufl float FunctionSpace.

(** A [Function] object: its space and [dat.data]. *)
Record Function : Type := mkFunction {
  function_space : FunctionSpace;
  dat : vec
}.

(** ** Checkpoint files *)

Record Checkpoint : Type := mkCheckpoint {
  ck_attrs : list (string * Z);
  ck_meshes : list Mesh;
  ck_functions : list (string * nat * vec)
}.

Definition empty_checkpoint : Checkpoint := mkCheckpoint [] [] [].

(** The data stored under [name] at index [idx]: the latest entry wins. *)
Fixpoint lookup_function (name : string) (idx : nat)
    (fs : list (string * nat * vec)) : option vec :=
  match fs with
  | [] => None
  | (n, i, d) :: rest =>
      match lookup_function name idx rest with
      | Some d' => Some d'
      | None => if decide (n = name /\ i = idx) then Some d else None
      end
  end.

Definition load_function (ck : Checkpoint) (name : string) (idx : nat)
    : option vec :=
  lookup_function name idx (ck_functions ck).

(** ** Observable effects, in the order they happen *)

Inductive event : Type :=
| EvInterpolate (e : expr) (f : loc)
| EvSolve (c : solve_call float FunctionSpace)
| EvRand (n : nat)
| EvOpen (path : string)
| EvSetAttr (path key : string) (v : Z)
| EvSaveMesh (path : string) (m : Mesh)
| EvSaveFunction (path name : string) (idx : nat) (f : loc).

(** ** The world the program runs in *)

Record World : Type := mkWorld {
  heap : gmap loc Function;
  np_random : RandomState;
  global_mesh : option Mesh;
  files : gmap string Checkpoint;
  log : list event
}.

Definition set_heap (h : gmap loc Function) (w : World) : World :=
  mkWorld h (np_random w) (global_mesh w) (files w) (log w).
Definition set_np_random (s : RandomState) (w : World) : World :=
  mkWorld (heap w) s (global_mesh w) (files w) (log w).
Definition set_global_mesh (m : option Mesh) (w : World) : World :=
  mkWorld (heap w) (np_random w) m (files w) (log w).
Definition set_files (fs : gmap string Checkpoint) (w : World) : World :=
  mkWorld (heap w) (np_random w) (global_mesh w) fs (log w).
Definition emit (e : event) (w : World) : World :=
  mkWorld (heap w) (np_random w) (global_mesh w) (files w) (log w ++ [e]).

(** ** State and exceptions *)

Definition M (A : Type) : Type := World -> outcome A * World.

Definition ret {A} (a : A) : M A := fun w => (Ok a, w).
Definition raise {A} (e : exn) : M A := fun w => (Raise e, w).
Definition bind {A B} (c : M A) (k : A -> M B) : M B :=
  fun w => match c w with
           | (Ok a, w') => k a w'
           | (Raise e, w') => (Raise e, w')
           end.
Definition get : M World := fun w => (Ok w, w).
Definition modify (f : World -> World) : M unit := fun w => (Ok tt, f w).

Notation "'let*' x ':=' c 'in' k" := (bind c (fun x => k))
  (at level 10, x pattern, c at level 100, k at level 200).
Notation "c '>>' k" := (bind c (fun _ => k))
  (at level 90, right associativity).

(** [for x in xs: body], with the local variables the body updates as [s]. *)
Fixpoint for_in {A S : Type} (xs : list A) (body : A -> S -> M S) (s : S)
    : M S :=
  match xs with
  | [] => ret s
  | x :: rest => let* s' := body x s in for_in rest body s'
  end.

(** [range(n)]; a negative bound gives the empty range. *)
Definition range (n : Z) : list nat := seq 0 (Z.to_nat n).

(** A user callable taking a list of functions (and maybe a space).  The
    callable may allocate and overwrite functions, write files and raise; it
    is handed the list as a value, so a callable that pops from or appends to
    the list object it receives is outside this model.  The properties that
    relate what is saved to what was generated are therefore stated for the
    built-in stages, which do not touch their argument list. *)
Definition forward_callable : Type := list loc -> FunctionSpace -> M (list loc).
Definition noise_callable : Type := list loc -> M (list loc).

(** ** Firedrake calls made by the program *)

(** A new object. *)
Definition new_function (f : Function) : M loc :=
  fun w => let l := fresh (dom (heap w)) in
           (Ok l, set_heap (<[l := f]> (heap w)) w).

(** Attribute access on an object that must be a [Function]. *)
Definition deref (l : loc) : M Function :=
  fun w => match heap w !! l with
           | Some f => (Ok f, w)
           | None => (Raise AttributeError, w)
           end.

(** [Function(V)]: a function with all coefficients zero. *)
Definition zeros (V : FunctionSpace) : vec := replicate (dim V) (flit 0 0).

Definition Function_ (V : FunctionSpace) : M loc :=
  new_function (mkFunction V (zeros V)).

(** [interpolate(e, V)] and [Function(V).interpolate(e)] *)
Definition interpolate (e : expr) (V : FunctionSpace) : M loc :=
  let* f := new_function (mkFunction V (interpolate_data e V)) in
  modify (emit (EvInterpolate e f)) >>
  ret f.

(** [solve(F == 0, u, ...)]: the solution overwrites the data of [u]. *)
Definition solve (c : solve_call float FunctionSpace) : M unit :=
  let* u := deref (unknown c) in
  let* w := get in
  let d := solve_data (function_space u) (dat <$> heap w) c in
  modify (set_heap (<[unknown c := mkFunction (function_space u) d]> (heap w))) >>
  modify (emit (EvSolve c)).

(** ** [random_field] *)

(** The body of [for _ in range(m)]: locals [r] and the generator. *)
Definition mode_step (σ : float) (_ : nat) (s : expr * Generator)
    : expr * Generator :=
  let '(r, g) := s in
  let '((a, b), g) := standard_normal g in
  let '((k1, k2), g) := normal 0 σ g in
  let θ := Product (Product (IntValue 2) Pi)
             (Sum (Product (ScalarValue k1) CoordX)
                  (Product (ScalarValue k2) CoordY)) in
  (Sum r (Sum (Product (Constant a) (Cos θ)) (Product (Constant b) (Sin θ))),
   g).

Definition mode_loop (σ : float) (m : Z) (s : expr * Generator)
    : expr * Generator :=
  fold_left (fun s i => mode_step σ i s) (range m) s.

(** [1 / m] on Python integers. *)
Definition py_truediv (a b : Z) : M expr :=
  if decide (b = 0) then raise ZeroDivisionError
  else ret (Division (IntValue a) (IntValue b)).

(** The body of [for _ in trange(N)]: locals [fields] and the generator.
    For a negative [m] the mode loop is empty and the code takes the square
    root of the negative float [1 / m] and multiplies it by the Python
    integer [0]; the symbolic tree built here does not describe that case,
    and the properties of the fields produced are stated for [0 < m]. *)
Definition field_step (V : FunctionSpace) (m : Z) (σ : float) (_ : nat)
    (s : Generator * list loc) : M (Generator * list loc) :=
  let '(rng, fields) := s in
  let '(r, rng) := mode_loop σ m (IntValue 0, rng) in
  let* q := py_truediv 1 m in
  let* k := interpolate (Product (Sqrt q) r) V in
  ret (rng, fields ++ [k]).

Definition random_field (V : FunctionSpace) (N m : Z) (σ : float) (seed : Z)
    : M (list loc) :=
  let rng := default_rng seed in
  let* s := for_in (range N) (field_step V m σ) (rng, []) in
  ret (snd s).

(** ** [generate_data] *)

Definition dq : string := String (Ascii.ascii_of_nat 34) EmptyString.

Definition msg_ntest : string :=
  "The case ntest != 1 is not implemented and necessitates defining an appropriate evaluation metric.".
Definition msg_forward : string :=
  Eval cbv in
  ("Forward problem not implemented. Use " +:+ dq +:+ "poisson" +:+ dq +:+
   " or provide a callable for your forward problem.").
Definition msg_noise : string :=
  Eval cbv in
  ("Noise distribution not implemented. Use " +:+ dq +:+ "normal" +:+ dq +:+
   " or provide a callable for your noise distribution.").

(** Lines 44-54: the built-in forward problem. *)
Definition poisson_residual (V : FunctionSpace) (k u f : loc) : form float FunctionSpace :=
  let v := TestFunction V in
  IntegralDx
    (Diff (Inner (Product (Exp (Coefficient k)) (Grad (Coefficient u))) (Grad v))
          (Inner (Coefficient f) v)).

Definition poisson_call (V : FunctionSpace) (k u f : loc)
    : solve_call float FunctionSpace :=
  mkSolve (poisson_residual V k u f) u
    [mkDirichletBC V (Constant (flit 0 0)) "on_boundary"]
    (<["ksp_type" := "preonly"]> (<["pc_type" := "lu"]> ∅)).

(** The body of [for k in tqdm(ks)]: local [us]. *)
Definition poisson_step (V : FunctionSpace) (f : loc) (k : loc)
    (us : list loc) : M (list loc) :=
  let* u := Function_ V in
  solve (poisson_call V k u f) >>
  ret (us ++ [u]).

Definition source_term : expr :=
  Product (Sin (Product Pi CoordX)) (Sin (Product Pi CoordY)).

Definition poisson (V : FunctionSpace) (ks : list loc) : M (list loc) :=
  let* f := interpolate source_term V in
  for_in ks (poisson_step V f) [].

(** Lines 43-58: dispatch on [forward]. *)
Definition solutions (V : FunctionSpace) (forward : selector forward_callable)
    (ks : list loc) : M (list loc) :=
  match forward with
  | Str s =>
      if decide (s = "poisson") then poisson V ks
      else raise (NotImplementedError msg_forward)
  | Callable f => f ks V
  | Object eq call =>
      match eq "poisson" with
      | Raise e => raise e
      | Ok true => poisson V ks
      | Ok false =>
          match call with
          | Some f => f ks V
          | None => raise (NotImplementedError msg_forward)
          end
      end
  end.

(** [np.random.rand(n)] *)
Definition np_random_rand (n : nat) : M vec :=
  fun w => let '(d, s) := rand n (np_random w) in
           (Ok d, emit (EvRand n) (set_np_random s w)).

(** [d[:] += n] on one-dimensional arrays, with NumPy's broadcasting. *)
Definition broadcast_iadd (d n : vec) : option vec :=
  if decide (length n = length d) then Some (zip_with fadd d n)
  else match n with
       | [c] => Some (map (fun x => fadd x c) d)
       | _ => None
       end.

(** [u.dat.data[:] += noise] *)
Definition iadd_data (u : loc) (noise : vec) : M unit :=
  let* f := deref u in
  match broadcast_iadd (dat f) noise with
  | Some d =>
      fun w => (Ok tt, set_heap (<[u := mkFunction (function_space f) d]> (heap w)) w)
  | None => raise (ValueError "operands could not be broadcast together")
  end.

(** Lines 64-68: the built-in noise. *)
Definition noise_step (V : FunctionSpace) (scale_noise : float) (u : loc)
    (us_obs : list loc) : M (list loc) :=
  let* r := np_random_rand (dim V) in
  let noise := map (fmul scale_noise) r in
  iadd_data u noise >>
  ret (us_obs ++ [u]).

Definition normal_noise (V : FunctionSpace) (scale_noise : float)
    (us : list loc) : M (list loc) :=
  for_in us (noise_step V scale_noise) [].

(** Lines 63-72: dispatch on [noise]. *)
Definition observations (V : FunctionSpace) (noise : selector noise_callable)
    (scale_noise : float) (us : list loc) : M (list loc) :=
  match noise with
  | Str s =>
      if decide (s = "normal") then normal_noise V scale_noise us
      else raise (NotImplementedError msg_noise)
  | Callable f => f us
  | Object eq call =>
      match eq "normal" with
      | Raise e => raise e
      | Ok true => normal_noise V scale_noise us
      | Ok false =>
          match call with
          | Some f => f us
          | None => raise (NotImplementedError msg_noise)
          end
      end
  end.

(** [*init, last = xs] *)
Fixpoint split_last {A : Type} (xs : list A) : option (list A * A) :=
  match xs with
  | [] => None
  | x :: rest =>
      match split_last rest with
      | None => Some ([], x)
      | Some (init, l) => Some (x :: init, l)
      end
  end.

Definition unpack_last {A : Type} (xs : list A) : M (list A * A) :=
  match split_last xs with
  | Some p => ret p
  | None => raise (ValueError "not enough values to unpack (expected at least 1, got 0)")
  end.

(** [os.path.join(a, b)] on POSIX. *)
Definition ends_with_slash (a : string) : bool :=
  match last (list_ascii_of_string a) with
  | Some c => bool_decide (c = Ascii.ascii_of_nat 47)
  | None => false
  end.
Definition starts_with_slash (b : string) : bool :=
  match b with
  | String c _ => bool_decide (c = Ascii.ascii_of_nat 47)
  | EmptyString => false
  end.
Definition path_join (a b : string) : string :=
  if starts_with_slash b then b
  else if bool_decide (a = EmptyString) || ends_with_slash a then a +:+ b
  else a +:+ "/" +:+ b.

(** [CheckpointFile(path, 'w')]: the file is created or truncated.  Opening
    is taken to succeed: directories are not modelled, and the failure of
    the call when [data_dir] does not exist is not represented.  The
    properties of what is saved are conditional on the run succeeding. *)
Definition open_w (path : string) : M unit :=
  modify (fun w => emit (EvOpen path) (set_files (<[path := empty_checkpoint]> (files w)) w)).

Definition update_file (path : string) (f : Checkpoint -> Checkpoint) : World -> World :=
  fun w => set_files (alter f path (files w)) w.

(** [afile.h5pyfile[key] = v] *)
Definition set_attr (path key : string) (v : Z) : M unit :=
  modify (fun w => emit (EvSetAttr path key v)
    (update_file path (fun ck =>
       mkCheckpoint (ck_attrs ck ++ [(key, v)]) (ck_meshes ck) (ck_functions ck)) w)).

(** The module-level name [mesh]. *)
Definition read_global_mesh : M Mesh :=
  fun w => match global_mesh w with
           | Some m => (Ok m, w)
           | None => (Raise (NameError "mesh"), w)
           end.

(** [afile.save_mesh(m)] *)
Definition save_mesh (path : string) (m : Mesh) : M unit :=
  modify (fun w => emit (EvSaveMesh path m)
    (update_file path (fun ck =>
       mkCheckpoint (ck_attrs ck) (ck_meshes ck ++ [m]) (ck_functions ck)) w)).

(** [afile.save_function(f, idx=idx, name=name)] *)
Definition save_function (path : string) (f : loc) (idx : nat) (name : string)
    : M unit :=
  let* o := deref f in
  modify (fun w => emit (EvSaveFunction path name idx f)
    (update_file path (fun ck =>
       mkCheckpoint (ck_attrs ck) (ck_meshes ck)
                    (ck_functions ck ++ [(name, idx, dat o)])) w)).

(** [enumerate(xs)] *)
Definition enumerate {A : Type} (xs : list A) : list (nat * A) :=
  zip (seq 0 (length xs)) xs.

(** Lines 84-90. *)
Definition save_sample (path : string) (s : nat * (loc * (loc * loc)))
    (_ : unit) : M unit :=
  let '(i, (k, (u, u_obs))) := s in
  save_function path k i "k" >>
  save_function path u i "u" >>
  save_function path u_obs i "u_obs".

Definition save_train (data_dir : string) (ntrain : Z)
    (ks_train us_train us_obs_train : list loc) : M unit :=
  let path := path_join data_dir "train_data.h5" in
  open_w path >>
  set_attr path "ntrain" ntrain >>
  let* mesh := read_global_mesh in
  save_mesh path mesh >>
  for_in (enumerate (zip ks_train (zip us_train us_obs_train)))
    (save_sample path) tt.

(** Lines 93-98. *)
Definition save_test (data_dir : string) (ntest : Z)
    (k_test u_test u_obs_test : loc) : M unit :=
  let path := path_join data_dir "test_data.h5" in
  open_w path >>
  set_attr path "ntest" ntest >>
  let* mesh := read_global_mesh in
  save_mesh path mesh >>
  save_function path k_test 0 "k" >>
  save_function path u_test 0 "u" >>
  save_function path u_obs_test 0 "u_obs".

Definition generate_data (V : FunctionSpace) (data_dir : string)
    (ntrain ntest : Z) (forward : selector forward_callable)
    (noise : selector noise_callable) (scale_noise : float) (seed : Z)
    : M unit :=
  if decide (ntest <> 1) then raise (NotImplementedError msg_ntest)
  else
    let* ks := random_field V (ntrain + ntest) 15 (flit 14 (-1)) seed in
    let* us := solutions V forward ks in
    let* us_obs := observations V noise scale_noise us in
    let* (ks_train, k_test) := unpack_last ks in
    let* (us_train, u_test) := unpack_last us in
    let* (us_obs_train, u_obs_test) := unpack_last us_obs in
    save_train data_dir ntrain ks_train us_train us_obs_train >>
    save_test data_dir ntest k_test u_test u_obs_test.

(** ** The [__main__] block *)

Record Args : Type := mkArgs {
  arg_ntrain : Z;
  arg_forward : string;
  arg_noise : string;
  arg_scale_noise : float;
  arg_nx : Z;
  arg_ny : Z;
  arg_Lx : float;
  arg_Ly : float;
  arg_degree : Z;
  arg_resources_dir : string;
  arg_name_dir : string
}.

Definition default_args : Args :=
  mkArgs 50 "poisson" "normal" (flit 5 (-3)) 50 50 (flit 1 0) (flit 1 0) 1
         "../data" "poisson_data".

(** The [__main__] block after argument parsing.  The two lines that create
    [data_dir] when it does not exist ([os.path.exists], [os.makedirs]) are
    not modelled, directories not being part of the world; they can only add
    ways for the script to fail, so what is proved of a successful run of
    [main] is unaffected, and no property asserts that the script succeeds. *)
Definition main (args : Args) : M unit :=
  let mesh := RectangleMesh (arg_nx args) (arg_ny args) (arg_Lx args)
                (arg_Ly args) "mesh" in
  modify (set_global_mesh (Some mesh)) >>
  let V := mkFunctionSpace mesh "CG" (arg_degree args) in
  let data_dir := path_join (path_join (arg_resources_dir args) "datasets")
                    (arg_name_dir args) in
  generate_data V data_dir (arg_ntrain args) 1 (Str (arg_forward args))
    (Str (arg_noise args)) (arg_scale_noise args) 1234.

(** ** Notions used to state the properties *)

(** The expression interpolated for one field, and the generator after it. *)
Definition field_expr (σ : float) (m : Z) (g : Generator) : expr * Generator :=
  let '(r, g') := mode_loop σ m (IntValue 0, g) in
  (Product (Sqrt (Division (IntValue 1) (IntValue m))) r, g').

(** The expressions of [n] successive fields. *)
Fixpoint field_exprs (σ : float) (m : Z) (n : nat) (g : Generator) : list expr :=
  match n with
  | O => []
  | S n' => let '(e, g') := field_expr σ m g in e :: field_exprs σ m n' g'
  end.

(** The value of a scalar, coefficient-free expression at a point. *)
Definition lift2 (op : R -> R -> R) (a b : option R) : option R :=
  match a, b with
  | Some u, Some v => Some (op u v)
  | _, _ => None
  end.

Fixpoint denote (x y : R) (e : expr) : option R :=
  match e with
  | IntValue n => Some (IZR n)
  | Pi => Some PI
  | ScalarValue c => Some (f2r c)
  | Constant c => Some (f2r c)
  | CoordX => Some x
  | CoordY => Some y
  | Sum a b => lift2 Rplus (denote x y a) (denote x y b)
  | Diff a b => lift2 Rminus (denote x y a) (denote x y b)
  | Product a b => lift2 Rmult (denote x y a) (denote x y b)
  | Division a b => lift2 Rdiv (denote x y a) (denote x y b)
  | Cos a => option_map cos (denote x y a)
  | Sin a => option_map sin (denote x y a)
  | Exp a => option_map exp (denote x y a)
  | Sqrt a => option_map sqrt (denote x y a)
  | Coefficient _ | TestFunction _ | Grad _ | Inner _ _ => None
  end.

(** The sampler as the specification words it: per mode a pair of
    standard-normal amplitudes and a pair of normal(0, σ) frequency
    components; the field is the sum of the cosine and sine terms over the
    modes, scaled by the inverse square root of the mode count. *)
Record mode : Type := mkMode {
  amp_cos : float;
  amp_sin : float;
  freq_x : float;
  freq_y : float
}.

Definition spec_draw_mode (σ : float) (g : Generator) : mode * Generator :=
  let '((a, b), g1) := standard_normal g in
  let '((k1, k2), g2) := normal 0 σ g1 in
  (mkMode a b k1 k2, g2).

Fixpoint spec_draw_modes (σ : float) (m : nat) (g : Generator)
    : list mode * Generator :=
  match m with
  | O => ([], g)
  | S m' =>
      let '(md, g1) := spec_draw_mode σ g in
      let '(rest, g2) := spec_draw_modes σ m' g1 in
      (md :: rest, g2)
  end.

Fixpoint spec_draw_fields (σ : float) (m n : nat) (g : Generator)
    : list (list mode) :=
  match n with
  | O => []
  | S n' => let '(mds, g') := spec_draw_modes σ m g in
            mds :: spec_draw_fields σ m n' g'
  end.

Definition spec_mode_value (md : mode) (x y : R) : R :=
  let θ := (2 * PI * (f2r (freq_x md) * x + f2r (freq_y md) * y))%R in
  (f2r (amp_cos md) * cos θ + f2r (amp_sin md) * sin θ)%R.

Definition modes_sum (mds : list mode) (x y : R) : R :=
  fold_right (fun md s => (spec_mode_value md x y + s)%R) 0%R mds.

Definition spec_field_value (mds : list mode) (m : Z) (x y : R) : R :=
  (/ sqrt (IZR m) * modes_sum mds x y)%R.

(** What a caller of [random_field] can read off its result: the coefficient
    vectors of the returned functions, or the exception. *)
Definition returned_data (r : outcome (list loc) * World)
    : outcome (list (option vec)) :=
  match r with
  | (Ok ks, w) => Ok (map (fun k => dat <$> heap w !! k) ks)
  | (Raise e, _) => Raise e
  end.

(** The data [random_field] returns, computed from its arguments alone. *)
Definition sampled_data (V : FunctionSpace) (N m : Z) (σ : float) (seed : Z)
    : outcome (list (option vec)) :=
  if decide (m = 0) then
    if decide (0 < N) then Raise ZeroDivisionError else Ok []
  else
    Ok (map (fun e => Some (interpolate_data e V))
            (field_exprs σ m (Z.to_nat N) (default_rng seed))).


(** Every listed object is a function with [dim V] coefficients. *)
Definition shaped (V : FunctionSpace) (h : gmap loc Function)
    (us : list loc) : Prop :=
  Forall (fun u => exists f, h !! u = Some f /\ length (dat f) = dim V) us.

(** The coefficient vector of an object in a heap. *)
Definition dat_of (h : gmap loc Function) (l : loc) : vec :=
  match h !! l with
  | Some f => dat f
  | None => []
  end.

(** The three entries a sample contributes to a checkpoint file. *)
Definition sample_entries (h : gmap loc Function)
    (s : nat * (loc * (loc * loc))) : list (string * nat * vec) :=
  let '(i, (k, (u, u_obs))) := s in
  [("k", i, dat_of h k); ("u", i, dat_of h u); ("u_obs", i, dat_of h u_obs)].

Definition add_functions (es : list (string * nat * vec)) (ck : Checkpoint)
    : Checkpoint :=
  mkCheckpoint (ck_attrs ck) (ck_meshes ck) (ck_functions ck ++ es).

(** A checkpoint file holds exactly [n] samples: the functions saved in it
    are, index after index from 0 to [n - 1], one named k, one named u and
    one named u_obs. *)
Definition holds_samples (ck : Checkpoint) (n : nat) : Prop :=
  map fst (ck_functions ck)
  = flat_map (fun i => [("k", i); ("u", i); ("u_obs", i)]) (seq 0 n).


(** Between [w] and [w'] the entries [es] were appended to the file at
    [path], and nothing else changed but the log. *)
Definition saved (path : string) (es : list (string * nat * vec))
    (w w' : World) : Prop :=
  heap w' = heap w
  /\ global_mesh w' = global_mesh w
  /\ files w' !! path = add_functions es <$> files w !! path
  /\ forall p, p <> path -> files w' !! p = files w !! p.

Definition train_path (data_dir : string) : string :=
  path_join data_dir "train_data.h5".
Definition test_path (data_dir : string) : string :=
  path_join data_dir "test_data.h5".


(** A stage returns as many functions as it is given: the built-in stages
    do, a callable may or may not. *)
Definition one_per_field (forward : selector forward_callable) : Prop :=
  match forward with
  | Callable f | Object _ (Some f) =>
      forall ks V w us w', f ks V w = (Ok us, w') -> length us = length ks
  | _ => True
  end.

Definition one_per_solution (noise : selector noise_callable) : Prop :=
  match noise with
  | Callable f | Object _ (Some f) =>
      forall us w us_obs w', f us w = (Ok us_obs, w') -> length us_obs = length us
  | _ => True
  end.


(** The argument is not callable and its comparison with the built-in name
    evaluates to [False]: another string, or an object such as [None] or a
    number. *)
Definition unknown_selector {C : Type} (builtin : string) (s : selector C)
    : Prop :=
  match s with
  | Str n => n <> builtin
  | Callable _ => False
  | Object eq call => eq builtin = Ok false /\ call = None
  end.

(** [sub in s] *)
Fixpoint is_substring (sub s : string) : bool :=
  String.prefix sub s ||
  match s with
  | EmptyString => false
  | String _ rest => is_substring sub rest
  end.

(** The variational solves recorded in a log. *)
Definition solve_calls (evs : list event) : list (solve_call float FunctionSpace) :=
  omap (fun e => match e with EvSolve c => Some c | _ => None end) evs.

(** The world after [CheckpointFile(path, 'w')] and [h5pyfile[key] = n]. *)
Definition opened (path key : string) (n : Z) (w : World) : World :=
  emit (EvSetAttr path key n)
    (update_file path (fun ck =>
       mkCheckpoint (ck_attrs ck ++ [(key, n)]) (ck_meshes ck) (ck_functions ck))
    (emit (EvOpen path)
       (set_files (<[path := empty_checkpoint]> (files w)) w))).


(** What [generate_data] still has to do once the solutions are there
    (lines 60-98). *)
Definition after_forward (V : FunctionSpace) (data_dir : string)
    (ntrain ntest : Z) (noise : selector noise_callable) (scale_noise : float)
    (ks us : list loc) : M unit :=
  let* us_obs := observations V noise scale_noise us in
  let* (ks_train, k_test) := unpack_last ks in
  let* (us_train, u_test) := unpack_last us in
  let* (us_obs_train, u_obs_test) := unpack_last us_obs in
  save_train data_dir ntrain ks_train us_train us_obs_train >>
  save_test data_dir ntest k_test u_test u_obs_test.


(** The successive results of [k] calls [np.random.rand(n)], and the state
    of the process-wide generator after them. *)
Fixpoint noise_draws (n k : nat) (s : RandomState) : list vec * RandomState :=
  match k with
  | O => ([], s)
  | S k' =>
      let '(d, s1) := rand n s in
      let '(rest, s2) := noise_draws n k' s1 in
      (d :: rest, s2)
  end.



(** The member of a (field, solution, observation) triple that is saved
    under a given name. *)
Definition component (name : string) (x : loc * (loc * loc)) : option loc :=
  if decide (name = "k") then Some (fst x)
  else if decide (name = "u") then Some (fst (snd x))
  else if decide (name = "u_obs") then Some (snd (snd x))
  else None.


(** A computation relates the world it starts in to the world it ends in,
    whether it returns or raises. *)
Definition keeps {A : Type} (R : World -> World -> Prop) (c : M A) : Prop :=
  forall w r w', c w = (r, w') -> R w w'.

(** Nothing changed between [w] and [w'] but the log and the file at
    [path]. *)
Definition touches_only (path : string) (w w' : World) : Prop :=
  heap w' = heap w
  /\ np_random w' = np_random w
  /\ global_mesh w' = global_mesh w
  /\ forall p, p <> path -> files w' !! p = files w !! p.

(** Whatever its outcome, [c] only appends function entries to the file at
    [path]: the entries [full] when it returns, some of the first of them
    when it raises. *)
Definition appends {A : Type} (path : string)
    (full : gmap loc Function -> list (string * nat * vec)) (c : M A) : Prop :=
  forall w r w',
    c w = (r, w') ->
    exists es,
      saved path es w w'
      /\ match r with
         | Ok _ => es = full (heap w)
         | Raise _ => es `prefix_of` full (heap w)
         end.

(** The data of the [i]-th object of a list, if there is one. *)
Definition saved_data (h : gmap loc Function) (ls : list loc) (i : nat)
    : option vec :=
  dat_of h <$> ls !! i.


End Generator.

(** ** A small executable instance of the collaborators

    Numbers are integers, a function space is its number of degrees of
    freedom, and the generators are counters.  It serves to run the program
    on concrete inputs. *)

Module Toy.

Definition toy_rand (n : nat) (s : Z) : list Z * Z :=
  (map (fun i => s + Z.of_nat i) (seq 0 n), s + Z.of_nat n).

Fixpoint size {F S : Type} (e : ufl F S) : Z :=
  match e with
  | Sum a b | Diff a b | Product a b | Division a b | Inner a b =>
      1 + size a + size b
  | Cos a | Sin a | Exp a | Sqrt a | Grad a => 1 + size a
  | _ => 1
  end.

Definition toy_interpolate (e : ufl Z nat) (V : nat) : list Z :=
  replicate V (size e).

Definition toy_solve (V : nat) (h : gmap loc (list Z)) (c : solve_call Z nat)
    : list Z :=
  replicate V (100 + Z.of_nat (unknown c)).

#[export] Instance toy : Collaborators := {|
  float := Z;
  fadd := Z.add;
  fmul := Z.mul;
  flit := fun d _ => d;
  f2r := IZR;
  Mesh := Z * Z;
  FunctionSpace := nat;
  RectangleMesh := fun nx ny _ _ _ => (nx, ny);
  mkFunctionSpace := fun m _ d => Z.to_nat ((d * fst m + 1) * (d * snd m + 1));
  dim := fun V => V;
  Generator := Z;
  default_rng := fun seed => seed;
  standard_normal := fun g => ((g + 1, g + 2), g + 3);
  normal := fun loc scale g => ((loc + scale * g, loc - scale * g), g + 5);
  RandomState := Z;
  rand := toy_rand;
  rand_length := fun n s =>
    eq_trans (length_map _ (seq 0 n)) (length_seq n 0);
  interpolate_data := toy_interpolate;
  interpolate_length := fun e V => length_replicate V (size e);
  solve_data := toy_solve;
  solve_length := fun V h c => length_replicate V (100 + Z.of_nat (unknown c))
|}.

(** A fresh process with no global [mesh], and one where it is bound. *)
Definition unbound : World := mkWorld ∅ 7 None ∅ [].
Definition bound : World := mkWorld ∅ 7 (Some (2, 2)) ∅ [].

(** A process in which [mesh] is bound and two functions exist, started in a
    directory that holds an earlier train_data.h5 and another file. *)
Definition earlier_train : Checkpoint :=
  mkCheckpoint [("ntrain", 9)] [(1, 1)] [("k", O, [1; 2]); ("u", O, [3; 4])].
Definition notes : Checkpoint := mkCheckpoint [("pages", 3)] [] [].
Definition stale : World :=
  mkWorld (<[0%nat := mkFunction 2%nat [10; 20]]>
             (<[1%nat := mkFunction 2%nat [30; 40]]> ∅))
          7 (Some (2, 2))
          (<["out/train_data.h5" := earlier_train]>
             (<["out/notes.h5" := notes]> ∅))
          [].

(** A NumPy array with several elements: the truth value of its comparison
    with a string is an error. *)
Definition ambiguous_truth_value : string :=
  "The truth value of an array with more than one element is ambiguous. Use a.any() or a.all()".
Definition array_like {C : Type} : selector C :=
  Object (fun _ => Raise (ValueError ambiguous_truth_value)) None.

(** [lambda ks, V: ks[:1]] *)
Definition first_only : forward_callable :=
  fun ks _ => ret (take 1 ks).

(** Two samples for training and one for testing on a space with two degrees
    of freedom, noise scaled by 3. *)
Abbreviation small_run ntest forward noise :=
  (generate_data (Collab := toy) 2%nat "out" 2 ntest forward noise 3 1234)
  (only parsing).

Definition small_args : Args :=
  mkArgs 2 "poisson" "normal" 3 1 1 1 1 1 "../data" "poisson_data".


(** The three stages of the small run, one after the other. *)
Abbreviation sampled :=
  (random_field (Collab := toy) 2%nat (2 + 1) 15 (flit 14 (-1)) 1234 unbound)
  (only parsing).
Abbreviation solved :=
  (solutions (Collab := toy) 2%nat (Str "poisson") [0; 1; 2]%nat (snd sampled))
  (only parsing).
Abbreviation noised :=
  (observations (Collab := toy) 2%nat (Str "normal") 3 [4; 5; 6]%nat (snd solved))
  (only parsing).


(** A world in which two functions with two coefficients each exist. *)
Definition two_functions : World :=
  mkWorld (<[0%nat := mkFunction 2%nat [10; 20]]>
             (<[1%nat := mkFunction 2%nat [30; 40]]> ∅))
          7 None ∅ [].


End Toy.

(** ** The fixtures of the coupling tests *)

Module Harness.

(** pyadjoint's process-wide state: the annotation switch and the working
    tape (a block is identified by a number). *)
Record Adjoint : Type := mkAdjoint {
  annotating : bool;
  tape : list nat
}.

(** Calls the fixtures make into pyadjoint, in order. *)
Inductive call : Type :=
| ContinueAnnotation
| PauseAnnotation
| ClearTape.

Definition Session : Type := Adjoint * list call.

Definition annotate_tape (s : Session) : bool := annotating (fst s).
Definition continue_annotation (s : Session) : Session :=
  (mkAdjoint true (tape (fst s)), snd s ++ [ContinueAnnotation]).
Definition pause_annotation (s : Session) : Session :=
  (mkAdjoint false (tape (fst s)), snd s ++ [PauseAnnotation]).
Definition clear_tape (s : Session) : Session :=
  (mkAdjoint (annotating (fst s)) [], snd s ++ [ClearTape]).

(** A test body does what it wants with pyadjoint's state; whether it passes
    or fails, the fixtures' teardown runs after it. *)
Definition test : Type := Adjoint -> Adjoint.
Definition run_test (t : test) (s : Session) : Session := (t (fst s), snd s).

(** [handle_taping]: function scope, around every test. *)
Definition handle_taping (t : test) (s : Session) : Session :=
  let s := run_test t s in
  clear_tape s.

(** [handle_annotation]: module scope, around all tests of the module. *)
Definition handle_annotation (body : Session -> Session) (s : Session)
    : Session :=
  let s := if negb (annotate_tape s) then continue_annotation s else s in
  let s := body s in
  let annotate := annotate_tape s in
  if annotate then pause_annotation s else s.

Definition run_tests (ts : list test) (s : Session) : Session :=
  fold_left (fun s t => handle_taping t s) ts s.

(** The tests of the module that run.  pytest sets a module-scoped fixture
    up for the first test that runs and tears it down after the last one: when
    no test of the module runs, no fixture is called. *)
Definition run_module (ts : list test) (a : Adjoint) : Session :=
  match ts with
  | [] => (a, [])
  | _ :: _ => handle_annotation (run_tests ts) (a, [])
  end.

(** The states in which the successive tests have left pyadjoint, each after
    its teardown. *)
Fixpoint states_after_tests (ts : list test) (s : Session) : list Session :=
  match ts with
  | [] => []
  | t :: rest => let s' := handle_taping t s in s' :: states_after_tests rest s'
  end.

(** pyadjoint's state when the module-scoped fixture is set up. *)
Definition set_up (a : Adjoint) : Session :=
  if negb (annotating a) then continue_annotation (a, []) else (a, []).

(** A process in which annotation is already on, and a test that leaves
    pyadjoint alone. *)
Definition already_on : Adjoint := mkAdjoint true [].
Definition idle : test := fun a => a.


(** A test that leaves the annotation switch as it found it. *)
Definition preserves_switch (t : test) : Prop :=
  forall a, annotating (t a) = annotating a.


End Harness.

(** * Properties of the generator *)

Section Properties.
Context `{Collab : Collaborators}.

(** ** The monad *)

Lemma bind_Ok {A B : Type} (c : M A) (k : A -> M B) w a w' :
  c w = (Ok a, w') -> bind c k w = k a w'.
Proof. intros E. unfold bind. now rewrite E. Qed.

Lemma bind_Raise {A B : Type} (c : M A) (k : A -> M B) w e w' :
  c w = (Raise e, w') -> bind c k w = (Raise e, w').
Proof. intros E. unfold bind. now rewrite E. Qed.

Lemma bind_Ok_inv {A B : Type} (c : M A) (k : A -> M B) w b w'' :
  bind c k w = (Ok b, w'') ->
  exists a w', c w = (Ok a, w') /\ k a w' = (Ok b, w'').
Proof.
  unfold bind. destruct (c w) as [[a|e] w'] eqn:E; [eauto | discriminate].
Qed.

Lemma run_of_fst {A : Type} (r : outcome A * World) (o : outcome A) :
  fst r = o -> r = (o, snd r).
Proof. destruct r as [o' w']. simpl. now intros ->. Qed.

(** ** [random_field] *)

Lemma interpolate_run (e : expr) V w :
  let l := fresh (dom (heap w)) in
  interpolate e V w =
    (Ok l, emit (EvInterpolate e l)
             (set_heap (<[l := mkFunction V (interpolate_data e V)]> (heap w)) w)).
Proof. reflexivity. Qed.

Lemma fresh_loc_unused (h : gmap loc Function) : h !! fresh (dom h) = None.
Proof. apply not_elem_of_dom, is_fresh. Qed.

Lemma insert_fresh_subseteq (h : gmap loc Function) f :
  h ⊆ <[fresh (dom h) := f]> h.
Proof. apply insert_subseteq, fresh_loc_unused. Qed.

Lemma field_step_run V m σ i g acc w (Hm : m <> 0) :
  let e := fst (field_expr σ m g) in
  let l := fresh (dom (heap w)) in
  field_step V m σ i (g, acc) w =
    (Ok (snd (field_expr σ m g), acc ++ [l]),
     emit (EvInterpolate e l)
       (set_heap (<[l := mkFunction V (interpolate_data e V)]> (heap w)) w)).
Proof.
  unfold field_step, field_expr.
  destruct (mode_loop σ m (IntValue 0, g)) as [r g'].
  unfold py_truediv. destruct (decide (m = 0)); [contradiction|].
  reflexivity.
Qed.

(** The loop of [random_field], from any generator state and any world. *)
Lemma field_loop_run V m σ (Hm : m <> 0) :
  forall xs g acc w,
  exists ks g' w',
    for_in xs (field_step V m σ) (g, acc) w = (Ok (g', acc ++ ks), w')
    /\ heap w ⊆ heap w'
    /\ Forall2 (fun k e =>
                  heap w' !! k = Some (mkFunction V (interpolate_data e V)))
               ks (field_exprs σ m (length xs) g)
    /\ Forall (fun k => heap w !! k = None) ks
    /\ log w' = log w ++ zip_with EvInterpolate (field_exprs σ m (length xs) g) ks
    /\ np_random w' = np_random w
    /\ global_mesh w' = global_mesh w
    /\ files w' = files w.
Proof.
  induction xs as [|x xs IH]; intros g acc w.
  - exists [], g, w. simpl. unfold ret. rewrite !app_nil_r.
    repeat split; auto.
  - simpl for_in.
    pose proof (field_step_run V m σ x g acc w Hm) as Hs. cbv zeta in Hs.
    set (l := fresh (dom (heap w))) in *.
    set (e := fst (field_expr σ m g)) in *.
    set (w1 := emit _ _) in Hs.
    destruct (IH (snd (field_expr σ m g)) (acc ++ [l]) w1)
      as (ks & g' & w' & Hrun & Hsub & Hdata & Hnew & Hlog & Hnp & Hgm & Hfs).
    exists (l :: ks), g', w'.
    assert (Hw1 : heap w ⊆ heap w1) by apply insert_fresh_subseteq.
    assert (He : field_exprs σ m (S (length xs)) g
                 = e :: field_exprs σ m (length xs) (snd (field_expr σ m g))).
    { simpl. subst e. now destruct (field_expr σ m g). }
    simpl length. rewrite He.
    repeat split.
    + rewrite (bind_Ok _ _ _ _ _ Hs), Hrun.
      now rewrite <- app_assoc.
    + now transitivity (heap w1).
    + constructor; [|exact Hdata].
      eapply lookup_weaken; [|exact Hsub].
      subst w1. simpl. apply lookup_insert_eq.
    + constructor; [apply fresh_loc_unused|].
      eapply Forall_impl; [exact Hnew|]. intros k Hk. cbv beta in Hk.
      destruct (heap w !! k) eqn:E; [|reflexivity].
      eapply lookup_weaken in E; [|exact Hw1]. congruence.
    + rewrite Hlog. subst w1. simpl. now rewrite <- app_assoc.
    + rewrite Hnp. reflexivity.
    + rewrite Hgm. reflexivity.
    + rewrite Hfs. reflexivity.
Qed.

Lemma length_range n : length (range n) = Z.to_nat n.
Proof. unfold range. apply length_seq. Qed.

Lemma random_field_run V N m σ seed w (Hm : m <> 0) :
  exists ks w',
    random_field V N m σ seed w = (Ok ks, w')
    /\ heap w ⊆ heap w'
    /\ Forall2 (fun k e =>
                  heap w' !! k = Some (mkFunction V (interpolate_data e V)))
               ks (field_exprs σ m (Z.to_nat N) (default_rng seed))
    /\ Forall (fun k => heap w !! k = None) ks
    /\ log w' = log w ++ zip_with EvInterpolate
                           (field_exprs σ m (Z.to_nat N) (default_rng seed)) ks
    /\ np_random w' = np_random w
    /\ global_mesh w' = global_mesh w
    /\ files w' = files w.
Proof.
  destruct (field_loop_run V m σ Hm (range N) (default_rng seed) [] w)
    as (ks & g' & w' & Hrun & H).
  rewrite length_range in H.
  exists ks, w'. split; [|exact H].
  unfold random_field. now rewrite (bind_Ok _ _ _ _ _ Hrun).
Qed.

(** With no mode, the division fails as soon as a field is asked for. *)
Lemma random_field_zero_modes V N σ seed w :
  0 < N ->
  random_field V N 0 σ seed w = (Raise ZeroDivisionError, w).
Proof.
  intros HN. unfold random_field, range.
  destruct (Z.to_nat N) as [|n] eqn:E; [lia|].
  simpl. unfold bind at 1. unfold bind at 1.
  unfold field_step.
  destruct (mode_loop σ 0 (IntValue 0, default_rng seed)) as [r g'].
  reflexivity.
Qed.

Lemma random_field_no_field V N m σ seed w :
  N <= 0 ->
  random_field V N m σ seed w = (Ok [], w).
Proof.
  intros HN. unfold random_field, range.
  replace (Z.to_nat N) with O by lia. reflexivity.
Qed.

Lemma returned_data_random_field V N m σ seed w :
  returned_data (random_field V N m σ seed w) = sampled_data V N m σ seed.
Proof.
  unfold sampled_data. destruct (decide (m = 0)) as [->|Hm].
  - destruct (decide (0 < N)) as [HN|HN].
    + now rewrite random_field_zero_modes.
    + rewrite random_field_no_field by lia. reflexivity.
  - destruct (random_field_run V N m σ seed w Hm)
      as (ks & w' & -> & _ & Hdata & _).
    simpl. f_equal.
    induction Hdata as [|k e ks es Hk _ IH]; [reflexivity|].
    simpl. rewrite Hk, IH. reflexivity.
Qed.

(** C6: two invocations of [random_field] with the same function space,
    sample count, mode count, frequency scale and seed return functions with
    identical coefficient vectors (or fail alike), whatever the worlds they
    start in, hence whatever the state of any process-wide generator. *)
Theorem random_field_deterministic V N m σ seed (w1 w2 : World) :
  returned_data (random_field V N m σ seed w1) =
  returned_data (random_field V N m σ seed w2).
Proof. now rewrite !returned_data_random_field. Qed.

(** ** The expression of a field *)

Lemma mode_step_denote σ i r g x y v :
  denote x y r = Some v ->
  snd (mode_step σ i (r, g)) = snd (spec_draw_mode σ g)
  /\ denote x y (fst (mode_step σ i (r, g)))
     = Some (v + spec_mode_value (fst (spec_draw_mode σ g)) x y)%R.
Proof.
  intros Hr. unfold mode_step, spec_draw_mode.
  destruct (standard_normal g) as [[a b] g1].
  destruct (normal 0 σ g1) as [[k1 k2] g2].
  split; [reflexivity|]. simpl. rewrite Hr. reflexivity.
Qed.

Lemma mode_fold_denote σ x y :
  forall (idx : list nat) r g v,
  denote x y r = Some v ->
  let s := fold_left (fun s i => mode_step σ i s) idx (r, g) in
  snd s = snd (spec_draw_modes σ (length idx) g)
  /\ denote x y (fst s)
     = Some (v + modes_sum (fst (spec_draw_modes σ (length idx) g)) x y)%R.
Proof.
  induction idx as [|i idx IH]; intros r g v Hr; cbv zeta.
  - simpl. split; [reflexivity|]. rewrite Hr. f_equal. lra.
  - destruct (mode_step_denote σ i r g x y v Hr) as [Hg Hv].
    cbn [fold_left length spec_draw_modes].
    destruct (mode_step σ i (r, g)) as [r1 g1].
    destruct (spec_draw_mode σ g) as [md g1']. simpl in Hg, Hv. subst g1'.
    destruct (IH r1 g1 _ Hv) as [IHg IHv]. cbv zeta in IHg, IHv.
    destruct (spec_draw_modes σ (length idx) g1) as [rest g3].
    simpl in *. split; [exact IHg|]. rewrite IHv. f_equal. lra.
Qed.

Lemma field_expr_denote σ m g x y :
  0 < m ->
  snd (field_expr σ m g) = snd (spec_draw_modes σ (Z.to_nat m) g)
  /\ denote x y (fst (field_expr σ m g))
     = Some (spec_field_value (fst (spec_draw_modes σ (Z.to_nat m) g)) m x y).
Proof.
  intros Hm. unfold field_expr, mode_loop.
  destruct (mode_fold_denote σ x y (range m) (IntValue 0) g 0%R eq_refl)
    as [Hg Hv].
  cbv zeta in Hg, Hv. rewrite length_range in Hg, Hv.
  destruct (fold_left _ (range m) _) as [r g'].
  simpl in *. split; [exact Hg|].
  rewrite Hv. simpl. f_equal. unfold spec_field_value, modes_sum.
  rewrite Rplus_0_l. f_equal.
  unfold Rdiv. rewrite Rmult_1_l. apply sqrt_inv.
Qed.

Lemma spec_draw_modes_length σ : forall m g,
  length (fst (spec_draw_modes σ m g)) = m.
Proof.
  induction m as [|m IH]; intros g; [reflexivity|].
  simpl. destruct (spec_draw_mode σ g) as [md g1].
  specialize (IH g1). destruct (spec_draw_modes σ m g1). simpl in *.
  now rewrite IH.
Qed.

Lemma field_exprs_denote σ m (Hm : 0 < m) : forall n g,
  Forall2 (fun e mds =>
             length mds = Z.to_nat m
             /\ forall x y, denote x y e = Some (spec_field_value mds m x y))
          (field_exprs σ m n g) (spec_draw_fields σ (Z.to_nat m) n g).
Proof.
  induction n as [|n IH]; intros g; simpl; [constructor|].
  pose proof (fun x y => field_expr_denote σ m g x y Hm) as Hd.
  pose proof (spec_draw_modes_length σ (Z.to_nat m) g) as Hl.
  destruct (field_expr σ m g) as [e g1].
  destruct (spec_draw_modes σ (Z.to_nat m) g) as [mds g2].
  simpl in Hd, Hl.
  destruct (Hd 0%R 0%R) as [-> _].
  constructor; [|apply IH].
  split; [exact Hl|]. intros x y. apply Hd.
Qed.

(** C7: for a positive mode count [m], every function [random_field] returns
    is the interpolant of an expression whose value at each point is the sum,
    over the [m] modes drawn for it (a pair of standard-normal amplitudes
    [a], [b], then a pair of normal(0, σ) frequency components [k1], [k2]),
    of [a cos(2π(k1 x + k2 y)) + b sin(2π(k1 x + k2 y))], multiplied by the
    inverse square root of [m]. *)
Theorem random_field_scaled_mode_sum V N m σ seed w :
  0 < m ->
  exists ks w',
    random_field V N m σ seed w = (Ok ks, w')
    /\ Forall2 (fun k mds =>
         length mds = Z.to_nat m
         /\ exists e,
              heap w' !! k = Some (mkFunction V (interpolate_data e V))
              /\ forall x y, denote x y e = Some (spec_field_value mds m x y))
       ks (spec_draw_fields σ (Z.to_nat m) (Z.to_nat N) (default_rng seed)).
Proof.
  intros Hm.
  destruct (random_field_run V N m σ seed w ltac:(lia))
    as (ks & w' & Hrun & _ & Hdata & _).
  exists ks, w'. split; [exact Hrun|]. clear Hrun.
  pose proof (field_exprs_denote σ m Hm (Z.to_nat N) (default_rng seed)) as Hd.
  revert Hd. generalize (spec_draw_fields σ (Z.to_nat m) (Z.to_nat N) (default_rng seed)).
  induction Hdata as [|k e ks es Hk _ IH]; intros mdss Hd.
  - inversion Hd; subst. constructor.
  - inversion Hd as [|? mds ? mdss' [Hl Hv] Hrest]; subst. constructor.
    + split; [exact Hl|]. exists e. split; [exact Hk | exact Hv].
    + apply IH, Hrest.
Qed.

(** ** The built-in forward problem *)

Lemma poisson_step_run V f k us w :
  let u := fresh (dom (heap w)) in
  let c := poisson_call V k u f in
  let h0 := <[u := mkFunction V (zeros V)]> (heap w) in
  poisson_step V f k us w =
    (Ok (us ++ [u]),
     emit (EvSolve c)
       (set_heap (<[u := mkFunction V (solve_data V (dat <$> h0) c)]> h0) w)).
Proof.
  cbv zeta. unfold poisson_step, Function_, new_function, solve, bind, deref.
  cbn [unknown poisson_call heap set_heap]. rewrite lookup_insert_eq.
  reflexivity.
Qed.

Lemma poisson_loop_run V f :
  forall ks acc w,
  exists us w',
    for_in ks (poisson_step V f) acc w = (Ok (acc ++ us), w')
    /\ heap w ⊆ heap w'
    /\ Forall (fun u => heap w !! u = None) us
    /\ Forall2 (fun k u => exists h,
          dat <$> heap w ⊆ h
          /\ h !! u = Some (zeros V)
          /\ heap w' !! u
             = Some (mkFunction V (solve_data V h (poisson_call V k u f))))
        ks us
    /\ log w' = log w ++ zip_with (fun k u => EvSolve (poisson_call V k u f)) ks us
    /\ np_random w' = np_random w
    /\ global_mesh w' = global_mesh w
    /\ files w' = files w.
Proof.
  induction ks as [|k ks IH]; intros acc w.
  - exists [], w. simpl. unfold ret. rewrite !app_nil_r. repeat split; auto.
  - cbn [for_in].
    pose proof (poisson_step_run V f k acc w) as Hs. cbv zeta in Hs.
    set (u := fresh (dom (heap w))) in *.
    set (h0 := <[u := mkFunction V (zeros V)]> (heap w)) in *.
    set (w1 := emit _ _) in Hs.
    assert (Hh1 : heap w1 = <[u := mkFunction V
                     (solve_data V (dat <$> h0) (poisson_call V k u f))]> (heap w)).
    { subst w1 h0. cbn [heap emit set_heap]. apply insert_insert_eq. }
    assert (Hw1 : heap w ⊆ heap w1).
    { rewrite Hh1. apply insert_fresh_subseteq. }
    destruct (IH (acc ++ [u]) w1)
      as (us & w' & Hrun & Hsub & Hnew & Hsol & Hlog & Hnp & Hgm & Hfs).
    exists (u :: us), w'. repeat split.
    + rewrite (bind_Ok _ _ _ _ _ Hs), Hrun. now rewrite <- app_assoc.
    + now transitivity (heap w1).
    + constructor; [apply fresh_loc_unused|].
      eapply Forall_impl; [exact Hnew|]. intros l Hl. cbv beta in Hl.
      destruct (heap w !! l) eqn:E; [|reflexivity].
      eapply lookup_weaken in E; [|exact Hw1]. congruence.
    + constructor.
      * exists (dat <$> h0). repeat split.
        -- apply map_fmap_mono. subst h0. apply insert_fresh_subseteq.
        -- subst h0. rewrite lookup_fmap, lookup_insert_eq. reflexivity.
        -- eapply lookup_weaken; [|exact Hsub].
           rewrite Hh1. apply lookup_insert_eq.
      * eapply Forall2_impl; [exact Hsol|].
        intros k' u' (h & Hh & Hz & Hd). exists h. repeat split; auto.
        transitivity (dat <$> heap w1); [|exact Hh].
        now apply map_fmap_mono.
    + rewrite Hlog. subst w1. cbn [log emit set_heap zip_with].
      now rewrite <- app_assoc.
    + rewrite Hnp. reflexivity.
    + rewrite Hgm. reflexivity.
    + rewrite Hfs. reflexivity.
Qed.

Lemma poisson_run V ks w :
  let f := fresh (dom (heap w)) in
  exists us w',
    poisson V ks w = (Ok us, w')
    /\ heap w ⊆ heap w'
    /\ heap w' !! f = Some (mkFunction V (interpolate_data source_term V))
    /\ Forall (fun u => heap w !! u = None) us
    /\ Forall2 (fun k u => exists h,
          dat <$> heap w ⊆ h
          /\ h !! f = Some (interpolate_data source_term V)
          /\ h !! u = Some (zeros V)
          /\ heap w' !! u
             = Some (mkFunction V (solve_data V h (poisson_call V k u f))))
        ks us
    /\ log w' = log w ++ EvInterpolate source_term f
                  :: zip_with (fun k u => EvSolve (poisson_call V k u f)) ks us
    /\ np_random w' = np_random w
    /\ global_mesh w' = global_mesh w
    /\ files w' = files w.
Proof.
  intros f. unfold poisson.
  rewrite (bind_Ok _ _ _ _ _ (interpolate_run source_term V w)).
  fold f. set (w1 := emit _ _).
  assert (Hf1 : heap w1 !! f = Some (mkFunction V (interpolate_data source_term V))).
  { subst w1. cbn [heap emit set_heap]. apply lookup_insert_eq. }
  assert (Hw1 : heap w ⊆ heap w1).
  { subst w1 f. cbn [heap emit set_heap]. apply insert_fresh_subseteq. }
  destruct (poisson_loop_run V f ks [] w1)
    as (us & w' & Hrun & Hsub & Hnew & Hsol & Hlog & Hnp & Hgm & Hfs).
  exists us, w'. repeat split.
  - exact Hrun.
  - now transitivity (heap w1).
  - eapply lookup_weaken; [exact Hf1 | exact Hsub].
  - eapply Forall_impl; [exact Hnew|]. intros l Hl. cbv beta in Hl.
    destruct (heap w !! l) eqn:E; [|reflexivity].
    eapply lookup_weaken in E; [|exact Hw1]. congruence.
  - eapply Forall2_impl; [exact Hsol|].
    intros k u (h & Hh & Hz & Hd). exists h. repeat split; auto.
    + transitivity (dat <$> heap w1); [|exact Hh]. now apply map_fmap_mono.
    + eapply lookup_weaken; [|exact Hh]. rewrite lookup_fmap, Hf1. reflexivity.
  - rewrite Hlog. subst w1. cbn [log emit set_heap].
    now rewrite <- app_assoc.
  - rewrite Hnp. reflexivity.
  - rewrite Hgm. reflexivity.
  - rewrite Hfs. reflexivity.
Qed.

(** ** The built-in noise *)

Lemma noise_step_result V scale u acc w r w' :
  noise_step V scale u acc w = (Ok r, w') -> r = acc ++ [u].
Proof.
  unfold noise_step. intros E.
  apply bind_Ok_inv in E as (d & w1 & _ & E).
  apply bind_Ok_inv in E as ([] & w2 & _ & E).
  unfold ret in E. congruence.
Qed.

(** Whatever the solutions are, the observation list that the built-in noise
    returns names the very same objects, in the same order. *)
Lemma noise_loop_result V scale : forall us acc w r w',
  for_in us (noise_step V scale) acc w = (Ok r, w') -> r = acc ++ us.
Proof.
  induction us as [|u us IH]; intros acc w r w' E.
  - simpl in E. unfold ret in E. rewrite app_nil_r. congruence.
  - cbn [for_in] in E. apply bind_Ok_inv in E as (a & w1 & E1 & E).
    apply noise_step_result in E1 as ->.
    apply IH in E. now rewrite <- app_assoc in E.
Qed.

Lemma normal_noise_result V scale us w r w' :
  normal_noise V scale us w = (Ok r, w') -> r = us.
Proof. apply noise_loop_result. Qed.

(** In-place addition on an object of the right size. *)
Lemma noise_step_run V scale u acc w f :
  heap w !! u = Some f ->
  length (dat f) = dim V ->
  let r := rand (dim V) (np_random w) in
  let d := zip_with fadd (dat f) (map (fmul scale) (fst r)) in
  noise_step V scale u acc w =
    (Ok (acc ++ [u]),
     set_heap (<[u := mkFunction (function_space f) d]> (heap w))
       (emit (EvRand (dim V)) (set_np_random (snd r) w))).
Proof.
  intros Hu Hl. cbv zeta.
  unfold noise_step, np_random_rand, iadd_data, bind, deref.
  pose proof (rand_length (dim V) (np_random w)) as Hr.
  destruct (rand (dim V) (np_random w)) as [d s]. cbn [fst snd] in *.
  cbn [heap emit set_np_random]. rewrite Hu.
  unfold broadcast_iadd.
  destruct (decide _) as [_|Hne]; [reflexivity|].
  exfalso. apply Hne. rewrite length_map. congruence.
Qed.

Lemma shaped_insert V h us u f :
  length (dat f) = dim V -> shaped V h us -> shaped V (<[u := f]> h) us.
Proof.
  intros Hl Hsh. eapply Forall_impl; [exact Hsh|]. intros l (g & Hg & Hgl).
  destruct (decide (l = u)) as [->|Hne].
  - exists f. now rewrite lookup_insert_eq.
  - exists g. now rewrite lookup_insert_ne.
Qed.

Lemma noise_loop_run V scale : forall us acc w,
  shaped V (heap w) us ->
  exists w',
    for_in us (noise_step V scale) acc w = (Ok (acc ++ us), w')
    /\ dom (heap w') = dom (heap w)
    /\ log w' = log w ++ replicate (length us) (EvRand (dim V))
    /\ global_mesh w' = global_mesh w
    /\ files w' = files w.
Proof.
  induction us as [|u us IH]; intros acc w Hsh.
  - exists w. simpl. unfold ret. rewrite !app_nil_r. repeat split; auto.
  - pose proof (Forall_inv Hsh) as (f & Hu & Hl).
    pose proof (noise_step_run V scale u acc w f Hu Hl) as Hs. cbv zeta in Hs.
    set (w1 := set_heap _ _) in Hs.
    destruct (IH (acc ++ [u]) w1) as (w' & Hrun & Hdom & Hlog & Hgm & Hfs).
    { subst w1. cbn [heap set_heap]. apply shaped_insert.
      - cbn [dat]. rewrite length_zip_with, length_map, rand_length. lia.
      - exact (Forall_inv_tail Hsh). }
    exists w'. repeat split.
    + cbn [for_in]. rewrite (bind_Ok _ _ _ _ _ Hs), Hrun.
      now rewrite <- app_assoc.
    + rewrite Hdom. subst w1. cbn [heap set_heap emit set_np_random].
      apply dom_insert_lookup_L. now exists f.
    + rewrite Hlog. subst w1. cbn [log set_heap emit set_np_random length replicate].
      now rewrite <- app_assoc.
    + rewrite Hgm. reflexivity.
    + rewrite Hfs. reflexivity.
Qed.

(** ** Writing the checkpoint files *)

Lemma append_inj_prefix (p a b : string) : p +:+ a = p +:+ b -> a = b.
Proof. induction p as [|c p IH]; simpl; [auto|]. intros E. injection E. auto. Qed.

Lemma train_test_paths_differ data_dir :
  train_path data_dir <> test_path data_dir.
Proof.
  unfold train_path, test_path, path_join.
  change (starts_with_slash "train_data.h5") with false.
  change (starts_with_slash "test_data.h5") with false.
  cbv iota.
  destruct (bool_decide (data_dir = EmptyString) || ends_with_slash data_dir);
    intros E; apply append_inj_prefix in E; discriminate.
Qed.

Lemma add_functions_nil (o : option Checkpoint) : add_functions [] <$> o = o.
Proof.
  destruct o as [[a m f]|]; [|reflexivity].
  unfold add_functions. simpl. now rewrite app_nil_r.
Qed.

Lemma add_functions_app es1 es2 (o : option Checkpoint) :
  add_functions es2 <$> (add_functions es1 <$> o) = add_functions (es1 ++ es2) <$> o.
Proof.
  destruct o as [[a m f]|]; [|reflexivity].
  unfold add_functions. simpl. now rewrite <- app_assoc.
Qed.

Lemma saved_refl path w : saved path [] w w.
Proof. unfold saved. rewrite add_functions_nil. auto. Qed.

Lemma saved_trans path es1 es2 w w1 w2 :
  saved path es1 w w1 -> saved path es2 w1 w2 -> saved path (es1 ++ es2) w w2.
Proof.
  intros (Hh1 & Hg1 & Hf1 & Ho1) (Hh2 & Hg2 & Hf2 & Ho2). unfold saved.
  rewrite Hh2, Hg2, Hf2, Hf1, add_functions_app.
  repeat split; auto. intros p Hp. rewrite Ho2, Ho1; auto.
Qed.

Lemma save_function_run path l idx name w :
  save_function path l idx name w =
    match heap w !! l with
    | Some f => (Ok tt, emit (EvSaveFunction path name idx l)
                          (update_file path (add_functions [(name, idx, dat f)]) w))
    | None => (Raise AttributeError, w)
    end.
Proof.
  unfold save_function, bind, deref. destruct (heap w !! l); reflexivity.
Qed.

Lemma save_function_Ok path l idx name w x w' :
  save_function path l idx name w = (Ok x, w') ->
  saved path [(name, idx, dat_of (heap w) l)] w w'
  /\ log w' = log w ++ [EvSaveFunction path name idx l].
Proof.
  rewrite save_function_run. unfold dat_of.
  destruct (heap w !! l) as [f|]; [|discriminate].
  intros E. injection E as _ <-. unfold saved, update_file.
  cbn [heap global_mesh files log emit set_files].
  repeat split.
  - apply lookup_alter_eq.
  - intros p Hp. now apply lookup_alter_ne.
Qed.

Lemma save_sample_Ok path s w w' :
  save_sample path s tt w = (Ok tt, w') ->
  saved path (sample_entries (heap w) s) w w'.
Proof.
  destruct s as (i & k & u & uo). unfold save_sample. intros E.
  apply bind_Ok_inv in E as ([] & w1 & E1 & E).
  apply bind_Ok_inv in E as ([] & w2 & E2 & E3).
  apply save_function_Ok in E1 as [S1 _].
  apply save_function_Ok in E2 as [S2 _].
  apply save_function_Ok in E3 as [S3 _].
  pose proof S1 as (H1 & _). pose proof S2 as (H2 & _).
  rewrite H2, H1 in S3. rewrite H1 in S2.
  exact (saved_trans _ [_] [_; _] _ _ _ S1 (saved_trans _ [_] [_] _ _ _ S2 S3)).
Qed.

Lemma save_loop_Ok path : forall xs w w',
  for_in xs (save_sample path) tt w = (Ok tt, w') ->
  saved path (flat_map (sample_entries (heap w)) xs) w w'.
Proof.
  induction xs as [|s xs IH]; intros w w' E.
  - simpl in E. unfold ret in E. injection E as <-. apply saved_refl.
  - cbn [for_in] in E. apply bind_Ok_inv in E as ([] & w1 & E1 & E).
    apply save_sample_Ok in E1. apply IH in E.
    pose proof E1 as (H1 & _). rewrite H1 in E.
    exact (saved_trans _ _ _ _ _ _ E1 E).
Qed.

(** The world once [path] is open, its count attribute set and the mesh
    saved. *)
Lemma header_written path key (n : Z) (m : Mesh) w :
  let w' := emit (EvSaveMesh path m)
              (update_file path (fun ck =>
                 mkCheckpoint (ck_attrs ck) (ck_meshes ck ++ [m]) (ck_functions ck))
              (emit (EvSetAttr path key n)
                (update_file path (fun ck =>
                   mkCheckpoint (ck_attrs ck ++ [(key, n)]) (ck_meshes ck) (ck_functions ck))
                (emit (EvOpen path)
                   (set_files (<[path := empty_checkpoint]> (files w)) w))))) in
  heap w' = heap w
  /\ global_mesh w' = global_mesh w
  /\ files w' !! path = Some (mkCheckpoint [(key, n)] [m] [])
  /\ forall p, p <> path -> files w' !! p = files w !! p.
Proof.
  cbv zeta. unfold update_file.
  cbn [heap global_mesh files emit set_files].
  repeat split.
  - rewrite lookup_alter_eq, lookup_alter_eq, lookup_insert_eq. reflexivity.
  - intros p Hp.
    rewrite lookup_alter_ne, lookup_alter_ne, lookup_insert_ne by auto.
    reflexivity.
Qed.

Lemma save_train_Ok data_dir ntrain ks us uos w w' :
  save_train data_dir ntrain ks us uos w = (Ok tt, w') ->
  exists m,
    global_mesh w = Some m
    /\ heap w' = heap w
    /\ global_mesh w' = global_mesh w
    /\ files w' !! train_path data_dir
       = Some (mkCheckpoint [("ntrain", ntrain)] [m]
                 (flat_map (sample_entries (heap w))
                           (enumerate (zip ks (zip us uos)))))
    /\ forall p, p <> train_path data_dir -> files w' !! p = files w !! p.
Proof.
  unfold save_train. fold (train_path data_dir).
  set (path := train_path data_dir). intros E.
  unfold open_w, set_attr, read_global_mesh, save_mesh, modify, bind in E.
  cbn [global_mesh emit update_file set_files] in E.
  destruct (global_mesh w) as [m|] eqn:Hm; [|discriminate].
  exists m. split; [reflexivity|].
  apply save_loop_Ok in E.
  destruct (header_written path "ntrain" ntrain m w) as (Hh & Hg & Hf & Ho).
  cbv zeta in Hh, Hg, Hf, Ho.
  destruct E as (Eh & Eg & Ef & Eo).
  rewrite Hh in Eh. rewrite Hh, Hf in Ef. rewrite Hg, Hm in Eg.
  repeat split; auto.
  intros p Hp. rewrite Eo, Ho; auto.
Qed.

Lemma save_test_Ok data_dir ntest k u uo w w' :
  save_test data_dir ntest k u uo w = (Ok tt, w') ->
  exists m,
    global_mesh w = Some m
    /\ heap w' = heap w
    /\ files w' !! test_path data_dir
       = Some (mkCheckpoint [("ntest", ntest)] [m]
                 (sample_entries (heap w) (O, (k, (u, uo)))))
    /\ forall p, p <> test_path data_dir -> files w' !! p = files w !! p.
Proof.
  unfold save_test. fold (test_path data_dir).
  set (path := test_path data_dir). intros E.
  unfold open_w, set_attr, read_global_mesh, save_mesh, modify in E.
  unfold bind at 1 2 3 4 in E.
  cbn [global_mesh emit update_file set_files] in E.
  destruct (global_mesh w) as [m|] eqn:Hm; [|discriminate].
  exists m. split; [reflexivity|].
  apply (save_sample_Ok path (O, (k, (u, uo)))) in E.
  destruct (header_written path "ntest" ntest m w) as (Hh & Hg & Hf & Ho).
  cbv zeta in Hh, Hg, Hf, Ho.
  destruct E as (Eh & Eg & Ef & Eo).
  rewrite Hh in Eh. rewrite Hh, Hf in Ef.
  repeat split; auto.
  intros p Hp. rewrite Eo, Ho; auto.
Qed.

(** ** The run as a whole *)

Lemma split_last_Some {A : Type} : forall (xs : list A) init l,
  split_last xs = Some (init, l) <-> xs = init ++ [l].
Proof.
  induction xs as [|x xs IH]; intros init l; simpl.
  - split; [discriminate|]. intros E. now destruct init.
  - destruct (split_last xs) as [[i' l']|] eqn:E.
    + pose proof (proj1 (IH i' l') eq_refl) as ->. split.
      * intros [= <- <-]. reflexivity.
      * destruct init as [|y init]; simpl.
        -- intros [= _ E']. now destruct i'.
        -- intros [= <- E']. apply app_inj_tail in E' as [-> ->]. reflexivity.
    + destruct xs as [|y xs].
      * split.
        -- intros [= <- <-]. reflexivity.
        -- destruct init as [|y init]; simpl; [now intros [= ->]|].
           intros [= _ E']. now destruct init.
      * exfalso. simpl in E. destruct (split_last xs) as [[? ?]|]; discriminate.
Qed.

Lemma split_last_None {A : Type} (xs : list A) :
  split_last xs = None <-> xs = [].
Proof.
  destruct xs as [|x xs]; simpl; [tauto|].
  destruct (split_last xs) as [[? ?]|]; split; discriminate.
Qed.

Lemma unpack_last_Ok {A : Type} (xs : list A) w p w' :
  unpack_last xs w = (Ok p, w') -> w' = w /\ xs = fst p ++ [snd p].
Proof.
  unfold unpack_last. destruct (split_last xs) as [[i l]|] eqn:E;
    [|discriminate].
  unfold ret. intros [= <- <-]. split; [reflexivity|].
  now apply split_last_Some.
Qed.

(** What a successful run went through. *)
Lemma generate_data_Ok V data_dir ntrain ntest forward noise scale seed w w' :
  generate_data V data_dir ntrain ntest forward noise scale seed w = (Ok tt, w') ->
  ntest = 1
  /\ exists ks w1 us w2 us_obs w3 ks_train k_test us_train u_test
            us_obs_train u_obs_test m,
       random_field V (ntrain + 1) 15 (flit 14 (-1)) seed w = (Ok ks, w1)
       /\ solutions V forward ks w1 = (Ok us, w2)
       /\ observations V noise scale us w2 = (Ok us_obs, w3)
       /\ ks = ks_train ++ [k_test]
       /\ us = us_train ++ [u_test]
       /\ us_obs = us_obs_train ++ [u_obs_test]
       /\ global_mesh w3 = Some m
       /\ heap w' = heap w3
       /\ files w' !! train_path data_dir
          = Some (mkCheckpoint [("ntrain", ntrain)] [m]
                    (flat_map (sample_entries (heap w3))
                       (enumerate (zip ks_train (zip us_train us_obs_train)))))
       /\ files w' !! test_path data_dir
          = Some (mkCheckpoint [("ntest", 1)] [m]
                    (sample_entries (heap w3)
                       (O, (k_test, (u_test, u_obs_test))))).
Proof.
  unfold generate_data. destruct (decide (ntest <> 1)) as [|Hn]; [discriminate|].
  assert (ntest = 1) as -> by lia. intros E. split; [reflexivity|].
  apply bind_Ok_inv in E as (ks & w1 & Eks & E).
  apply bind_Ok_inv in E as (us & w2 & Eus & E).
  apply bind_Ok_inv in E as (uos & w3 & Euos & E).
  apply bind_Ok_inv in E as ([ks_tr k_te] & w4 & E4 & E).
  apply unpack_last_Ok in E4 as [-> Hks].
  apply bind_Ok_inv in E as ([us_tr u_te] & w5 & E5 & E).
  apply unpack_last_Ok in E5 as [-> Hus].
  apply bind_Ok_inv in E as ([uos_tr uo_te] & w6 & E6 & E).
  apply unpack_last_Ok in E6 as [-> Huos].
  apply bind_Ok_inv in E as ([] & w7 & Etr & Ete).
  apply save_train_Ok in Etr as (m & Hm & Hh7 & Hg7 & Hf7 & Ho7).
  apply save_test_Ok in Ete as (m' & Hm' & Hh' & Hf' & Ho').
  rewrite Hg7, Hm in Hm'. injection Hm' as <-.
  exists ks, w1, us, w2, uos, w3, ks_tr, k_te, us_tr, u_te, uos_tr, uo_te, m.
  repeat split; auto.
  - congruence.
  - rewrite Ho' by apply train_test_paths_differ. exact Hf7.
  - rewrite Hf', Hh7. reflexivity.
Qed.

(** ** Rejected arguments *)

(** C2: whenever [ntest] is not 1, [generate_data] raises
    [NotImplementedError] and leaves the world exactly as it found it: no
    field is sampled, no problem solved, no file opened or written. *)
Theorem generate_data_rejects_ntest V data_dir ntrain ntest forward noise
    scale_noise seed w :
  ntest <> 1 ->
  generate_data V data_dir ntrain ntest forward noise scale_noise seed w
  = (Raise (NotImplementedError msg_ntest), w).
Proof.
  intros Hn. unfold generate_data.
  destruct (decide (ntest <> 1)); [reflexivity | contradiction].
Qed.

Lemma solutions_unknown V forward ks w :
  unknown_selector "poisson" forward ->
  solutions V forward ks w = (Raise (NotImplementedError msg_forward), w).
Proof.
  destruct forward as [s|f|eq call]; simpl; intros Hu.
  - destruct (decide (s = "poisson")); [contradiction | reflexivity].
  - contradiction.
  - destruct Hu as [-> ->]. reflexivity.
Qed.

Lemma observations_unknown V noise scale us w :
  unknown_selector "normal" noise ->
  observations V noise scale us w = (Raise (NotImplementedError msg_noise), w).
Proof.
  destruct noise as [s|f|eq call]; simpl; intros Hu.
  - destruct (decide (s = "normal")); [contradiction | reflexivity].
  - contradiction.
  - destruct Hu as [-> ->]. reflexivity.
Qed.

Lemma solve_calls_app evs1 evs2 :
  solve_calls (evs1 ++ evs2) = solve_calls evs1 ++ solve_calls evs2.
Proof. apply omap_app. Qed.

Lemma solve_calls_interpolations (es : list expr) (ks : list loc) :
  solve_calls (zip_with EvInterpolate es ks) = [].
Proof.
  revert ks. induction es as [|e es IH]; intros [|k ks]; simpl; auto.
Qed.

(** C3, amended: in a call with [ntest = 1], a [forward] argument that is
    not callable and whose comparison with the string poisson evaluates to
    [False] (another string, or an object such as [None] or a number) makes
    [generate_data] raise [NotImplementedError] with a message that names
    both valid choices; the random fields have been sampled by then, no
    variational problem has been solved and no file has been touched. *)
Theorem generate_data_unknown_forward V data_dir ntrain forward noise
    scale_noise seed w :
  unknown_selector "poisson" forward ->
  exists ks w',
    random_field V (ntrain + 1) 15 (flit 14 (-1)) seed w = (Ok ks, w')
    /\ generate_data V data_dir ntrain 1 forward noise scale_noise seed w
       = (Raise (NotImplementedError msg_forward), w')
    /\ is_substring "poisson" msg_forward = true
    /\ is_substring "callable" msg_forward = true
    /\ solve_calls (log w') = solve_calls (log w)
    /\ files w' = files w.
Proof.
  intros Hu.
  destruct (random_field_run V (ntrain + 1) 15 (flit 14 (-1)) seed w ltac:(lia))
    as (ks & w' & Hrun & _ & _ & _ & Hlog & _ & _ & Hfs).
  exists ks, w'. repeat split; auto.
  - unfold generate_data. destruct (decide (1 <> 1)) as [|_]; [contradiction|].
    rewrite (bind_Ok _ _ _ _ _ Hrun).
    apply bind_Raise. now apply solutions_unknown.
  - rewrite Hlog, solve_calls_app, solve_calls_interpolations.
    apply app_nil_r.
Qed.

Lemma generate_data_after_forward V data_dir ntrain forward noise scale seed
    w ks w1 us w2 :
  random_field V (ntrain + 1) 15 (flit 14 (-1)) seed w = (Ok ks, w1) ->
  solutions V forward ks w1 = (Ok us, w2) ->
  generate_data V data_dir ntrain 1 forward noise scale seed w
  = after_forward V data_dir ntrain 1 noise scale ks us w2.
Proof.
  intros Hks Hus. unfold generate_data.
  destruct (decide (1 <> 1)) as [|_]; [contradiction|].
  rewrite (bind_Ok _ _ _ _ _ Hks), (bind_Ok _ _ _ _ _ Hus). reflexivity.
Qed.

(** ** The default forward problem *)

(** C8: with [forward] the string poisson, [generate_data] solves, for each
    sampled field [k], the problem posed as [F == 0] with residual
    [(inner(exp(k) grad u, grad v) - inner(f, v)) dx], where [f] is the
    interpolant of [sin(pi x) sin(pi y)], under the single boundary condition
    [u = 0] on the whole boundary, with solver parameters ksp_type preonly
    and pc_type lu; the solution handed on for field [k] is the function the
    solver filled for that problem, from a state in which the field and the
    source term carry the data they were given. *)
Theorem generate_data_poisson_problem V data_dir ntrain noise scale seed w :
  exists ks w1 us w2,
    random_field V (ntrain + 1) 15 (flit 14 (-1)) seed w = (Ok ks, w1)
    /\ solutions V (Str "poisson") ks w1 = (Ok us, w2)
    /\ generate_data V data_dir ntrain 1 (Str "poisson") noise scale seed w
       = after_forward V data_dir ntrain 1 noise scale ks us w2
    /\ let f := fresh (dom (heap w1)) in
       let problem k u :=
         mkSolve
           (IntegralDx
              (Diff (Inner (Product (Exp (Coefficient k)) (Grad (Coefficient u)))
                           (Grad (TestFunction V)))
                    (Inner (Coefficient f) (TestFunction V))))
           u
           [mkDirichletBC V (Constant (flit 0 0)) "on_boundary"]
           (<["ksp_type" := "preonly"]> (<["pc_type" := "lu"]> ∅)) in
       heap w2 !! f
       = Some (mkFunction V
                 (interpolate_data
                    (Product (Sin (Product Pi CoordX)) (Sin (Product Pi CoordY)))
                    V))
       /\ solve_calls (log w2)
          = solve_calls (log w) ++ zip_with problem ks us
       /\ Forall2 (fun k u => exists h,
            dat <$> heap w1 ⊆ h
            /\ h !! f = Some (interpolate_data source_term V)
            /\ h !! u = Some (zeros V)
            /\ heap w2 !! u = Some (mkFunction V (solve_data V h (problem k u))))
          ks us.
Proof.
  destruct (random_field_run V (ntrain + 1) 15 (flit 14 (-1)) seed w ltac:(lia))
    as (ks & w1 & Hks & _ & _ & _ & Hlog1 & _).
  destruct (poisson_run V ks w1)
    as (us & w2 & Hus & _ & Hf & _ & Hsol & Hlog2 & _).
  exists ks, w1, us, w2. split; [exact Hks|]. split; [exact Hus|].
  split.
  { exact (generate_data_after_forward V data_dir ntrain (Str "poisson") noise
             scale seed w ks w1 us w2 Hks Hus). }
  cbv zeta. split; [exact Hf|]. split; [|exact Hsol].
  rewrite Hlog2, Hlog1, !solve_calls_app, solve_calls_interpolations.
  rewrite app_nil_r. f_equal. cbn [solve_calls omap].
  generalize (fresh (dom (heap w1))). intros f. clear.
  revert us. induction ks as [|k ks IH]; intros [|u us]; simpl; auto.
  f_equal. apply IH.
Qed.

(** ** The default pipeline up to the save step *)

Lemma solutions_length V forward ks w us w' :
  one_per_field forward ->
  solutions V forward ks w = (Ok us, w') -> length us = length ks.
Proof.
  assert (Hp : forall us0 w0, poisson V ks w = (Ok us0, w0) -> length us0 = length ks).
  { intros us0 w0 E.
    destruct (poisson_run V ks w) as (us' & w'' & Hrun & _ & _ & _ & Hsol & _).
    rewrite Hrun in E. injection E as <- <-.
    symmetry. exact (Forall2_length _ _ _ Hsol). }
  destruct forward as [s|f|eq [f|]]; simpl; intros Hone E.
  - destruct (decide (s = "poisson")); [eauto | discriminate].
  - eauto.
  - destruct (eq "poisson") as [[|]|e]; [eauto | eauto | discriminate].
  - destruct (eq "poisson") as [[|]|e]; [eauto | discriminate | discriminate].
Qed.

Lemma observations_length V noise scale us w us_obs w' :
  one_per_solution noise ->
  observations V noise scale us w = (Ok us_obs, w') -> length us_obs = length us.
Proof.
  assert (Hp : forall uo w0, normal_noise V scale us w = (Ok uo, w0) ->
                 length uo = length us).
  { intros uo w0 E. apply normal_noise_result in E. now subst. }
  destruct noise as [s|f|eq [f|]]; simpl; intros Hone E.
  - destruct (decide (s = "normal")); [eauto | discriminate].
  - eauto.
  - destruct (eq "normal") as [[|]|e]; [eauto | eauto | discriminate].
  - destruct (eq "normal") as [[|]|e]; [eauto | discriminate | discriminate].
Qed.

Lemma default_stages_run V ntrain scale seed w :
  let es := field_exprs (flit 14 (-1)) 15 (Z.to_nat (ntrain + 1)) (default_rng seed) in
  exists ks w1 us w2 w3,
    random_field V (ntrain + 1) 15 (flit 14 (-1)) seed w = (Ok ks, w1)
    /\ solutions V (Str "poisson") ks w1 = (Ok us, w2)
    /\ observations V (Str "normal") scale us w2 = (Ok us, w3)
    /\ length ks = Z.to_nat (ntrain + 1)
    /\ length us = length ks
    /\ log w2 = log w ++ zip_with EvInterpolate es ks
                  ++ EvInterpolate source_term (fresh (dom (heap w1)))
                  :: zip_with (fun k u =>
                       EvSolve (poisson_call V k u (fresh (dom (heap w1))))) ks us
    /\ log w3 = log w2 ++ replicate (length us) (EvRand (dim V))
    /\ files w2 = files w
    /\ files w3 = files w
    /\ global_mesh w3 = global_mesh w.
Proof.
  intros es.
  destruct (random_field_run V (ntrain + 1) 15 (flit 14 (-1)) seed w ltac:(lia))
    as (ks & w1 & Hks & _ & Hdata & _ & Hlog1 & _ & Hgm1 & Hfs1).
  destruct (poisson_run V ks w1)
    as (us & w2 & Hus & _ & _ & _ & Hsol & Hlog2 & _ & Hgm2 & Hfs2).
  destruct (noise_loop_run V scale us [] w2)
    as (w3 & Hobs & _ & Hlog3 & Hgm3 & Hfs3).
  { unfold shaped. clear -Hsol. induction Hsol as [|k u ks us (h & _ & _ & _ & Hu) _ IH];
      constructor; [|exact IH].
    eexists. split; [exact Hu|]. apply solve_length. }
  exists ks, w1, us, w2, w3. repeat split.
  - exact Hks.
  - exact Hus.
  - exact Hobs.
  - rewrite (Forall2_length _ _ _ Hdata). subst es.
    clear. generalize (default_rng seed).
    induction (Z.to_nat (ntrain + 1)) as [|n IH]; intros g; simpl; [reflexivity|].
    destruct (field_expr _ _ g). simpl. now rewrite IH.
  - symmetry. exact (Forall2_length _ _ _ Hsol).
  - rewrite Hlog2, Hlog1. now rewrite <- app_assoc.
  - exact Hlog3.
  - congruence.
  - congruence.
  - congruence.
Qed.

(** C9, amended: in a call with [ntest = 1], [ntrain >= 0] and the built-in
    forward problem, a [noise] argument that is not callable and whose
    comparison with the string normal evaluates to [False] (another string,
    or an object such as [None] or a number) makes [generate_data] raise
    [NotImplementedError] once all [ntrain + 1] random fields have been
    sampled and all [ntrain + 1] problems solved; no checkpoint file has
    been touched. *)
Theorem generate_data_unknown_noise V data_dir ntrain noise scale seed w :
  0 <= ntrain ->
  unknown_selector "normal" noise ->
  exists ks us es f w',
    generate_data V data_dir ntrain 1 (Str "poisson") noise scale seed w
    = (Raise (NotImplementedError msg_noise), w')
    /\ Z.of_nat (length ks) = ntrain + 1
    /\ length es = length ks
    /\ length us = length ks
    /\ log w' = log w ++ zip_with EvInterpolate es ks
                  ++ EvInterpolate source_term f
                  :: zip_with (fun k u => EvSolve (poisson_call V k u f)) ks us
    /\ files w' = files w.
Proof.
  intros Hn Hu.
  destruct (default_stages_run V ntrain scale seed w)
    as (ks & w1 & us & w2 & w3 & Hks & Hus & _ & Hlk & Hlu & Hlog & _ & Hfs & _).
  cbv zeta in Hlog.
  exists ks, us, (field_exprs (flit 14 (-1)) 15 (Z.to_nat (ntrain + 1))
                    (default_rng seed)), (fresh (dom (heap w1))), w2.
  repeat split; auto.
  - rewrite (generate_data_after_forward V data_dir ntrain (Str "poisson") noise
               scale seed w ks w1 us w2 Hks Hus).
    unfold after_forward. apply bind_Raise. now apply observations_unknown.
  - rewrite Hlk. lia.
  - rewrite Hlk. clear. generalize (default_rng seed).
    induction (Z.to_nat (ntrain + 1)) as [|n IH]; intros g; simpl; [reflexivity|].
    destruct (field_expr _ _ g). simpl. now rewrite IH.
Qed.

(** ** The save step without a global [mesh] *)

Lemma unpack_last_run {A : Type} (xs : list A) w :
  xs <> [] ->
  exists init l, xs = init ++ [l] /\ unpack_last xs w = (Ok (init, l), w).
Proof.
  intros Hne. unfold unpack_last.
  destruct (split_last xs) as [[init l]|] eqn:E.
  - exists init, l. split; [now apply split_last_Some | reflexivity].
  - apply split_last_None in E. contradiction.
Qed.

Lemma save_train_unbound data_dir ntrain ks us uos w :
  global_mesh w = None ->
  save_train data_dir ntrain ks us uos w
  = (Raise (NameError "mesh"), opened (train_path data_dir) "ntrain" ntrain w).
Proof.
  intros Hm. unfold save_train, open_w, set_attr, read_global_mesh, modify.
  unfold bind at 1 2 3.
  cbn [global_mesh emit update_file set_files]. rewrite Hm. reflexivity.
Qed.

Lemma after_forward_unbound V data_dir ntrain noise scale ks us w2 us_obs w3 :
  observations V noise scale us w2 = (Ok us_obs, w3) ->
  ks <> [] -> us <> [] -> us_obs <> [] ->
  global_mesh w3 = None ->
  after_forward V data_dir ntrain 1 noise scale ks us w2
  = (Raise (NameError "mesh"),
     opened (train_path data_dir) "ntrain" ntrain w3).
Proof.
  intros Hobs Nk Nu No Hm.
  unfold after_forward. rewrite (bind_Ok _ _ _ _ _ Hobs).
  destruct (unpack_last_run ks w3 Nk) as (ks_tr & k_te & _ & E1).
  destruct (unpack_last_run us w3 Nu) as (us_tr & u_te & _ & E2).
  destruct (unpack_last_run us_obs w3 No) as (uo_tr & uo_te & _ & E3).
  rewrite (bind_Ok _ _ _ _ _ E1), (bind_Ok _ _ _ _ _ E2), (bind_Ok _ _ _ _ _ E3).
  apply bind_Raise. now apply save_train_unbound.
Qed.


Lemma solve_calls_rands n k : solve_calls (replicate n (EvRand k)) = [].
Proof. induction n; simpl; auto. Qed.

Lemma length_zip_with_same {A B C : Type} (f : A -> B -> C) :
  forall (xs : list A) (ys : list B),
  length ys = length xs -> length (zip_with f xs ys) = length xs.
Proof.
  induction xs as [|x xs IH]; intros [|y ys]; simpl; auto.
Qed.

(** With the built-in stages the save step is always reached. *)
Lemma generate_data_default_unbound_mesh V data_dir ntrain scale seed w :
  0 <= ntrain ->
  global_mesh w = None ->
  exists w3,
    generate_data V data_dir ntrain 1 (Str "poisson") (Str "normal") scale seed w
    = (Raise (NameError "mesh"),
       opened (train_path data_dir) "ntrain" ntrain w3)
    /\ files w3 = files w
    /\ length (solve_calls (log w3))
       = (length (solve_calls (log w)) + Z.to_nat (ntrain + 1))%nat.
Proof.
  intros Hn Hm.
  destruct (default_stages_run V ntrain scale seed w)
    as (ks & w1 & us & w2 & w3 & Hks & Hus & Hobs & Hlk & Hlu & Hlog2 & Hlog3
        & _ & Hfs & Hgm).
  cbv zeta in Hlog2.
  assert (Nk : ks <> []) by (intros ->; simpl in Hlk; lia).
  assert (Nu : us <> []) by (intros ->; destruct ks; [auto|discriminate]).
  exists w3. split; [|split; [exact Hfs|]].
  - rewrite (generate_data_after_forward V data_dir ntrain (Str "poisson")
               (Str "normal") scale seed w ks w1 us w2 Hks Hus).
    apply after_forward_unbound with us; auto; congruence.
  - rewrite Hlog3, Hlog2, !solve_calls_app, solve_calls_interpolations,
      solve_calls_rands.
    rewrite app_nil_r. cbn [app solve_calls omap]. fold solve_calls.
    rewrite length_app. f_equal. rewrite <- Hlk, <- Hlu.
    generalize (fresh (dom (heap w1))). intros f.
    assert (E : solve_calls (zip_with (fun k u => EvSolve (poisson_call V k u f)) ks us)
                = zip_with (fun k u => poisson_call V k u f) ks us).
    { clear. revert us. induction ks as [|k ks IH]; intros [|u us]; simpl; auto.
      f_equal. apply IH. }
    change (solve_calls (EvInterpolate source_term f :: ?l))
      with (solve_calls l).
    rewrite E, length_zip_with_same by exact Hlu. now rewrite Hlu.
Qed.

(** ** What the checkpoint files hold *)



Lemma last_snoc_Some {A : Type} (xs : list A) (x : A) : last (xs ++ [x]) = Some x.
Proof. apply last_snoc. Qed.

Lemma entries_names h : forall (xs : list (loc * (loc * loc))) s,
  map fst (flat_map (sample_entries h) (zip (seq s (length xs)) xs))
  = flat_map (fun i => [("k", i); ("u", i); ("u_obs", i)]) (seq s (length xs)).
Proof.
  induction xs as [|(k & u & uo) xs IH]; intros s; [reflexivity|].
  simpl. now rewrite IH.
Qed.

Lemma length_zip3 {A B C : Type} (xs : list A) (ys : list B) (zs : list C) n :
  length xs = n -> length ys = n -> length zs = n ->
  length (zip xs (zip ys zs)) = n.
Proof.
  intros Hx Hy Hz. rewrite !length_zip_with_same; auto; try congruence.
  rewrite length_zip_with_same; congruence.
Qed.

(** C4, amended: in a successful run of [generate_data] with the built-in
    forward problem and the built-in noise (such a run has [ntest = 1]),
    [ntrain + 1] fields, solutions and observations are generated;
    train_data.h5 then holds exactly [ntrain] samples and the attribute
    [ntrain], and test_data.h5 holds exactly one sample, made of the last
    field, the last solution and the last observation. *)
Theorem generate_data_split_sizes V data_dir ntrain ntest scale seed w w' :
  generate_data V data_dir ntrain ntest (Str "poisson") (Str "normal") scale
    seed w = (Ok tt, w') ->
  ntest = 1
  /\ exists ks w1 us w2 us_obs w3 k_test u_test u_obs_test ck_train ck_test,
       random_field V (ntrain + 1) 15 (flit 14 (-1)) seed w = (Ok ks, w1)
       /\ solutions V (Str "poisson") ks w1 = (Ok us, w2)
       /\ observations V (Str "normal") scale us w2 = (Ok us_obs, w3)
       /\ Z.of_nat (length ks) = ntrain + 1
       /\ Z.of_nat (length us) = ntrain + 1
       /\ Z.of_nat (length us_obs) = ntrain + 1
       /\ files w' !! train_path data_dir = Some ck_train
       /\ ck_attrs ck_train = [("ntrain", ntrain)]
       /\ holds_samples ck_train (Z.to_nat ntrain)
       /\ files w' !! test_path data_dir = Some ck_test
       /\ holds_samples ck_test 1
       /\ last ks = Some k_test
       /\ last us = Some u_test
       /\ last us_obs = Some u_obs_test
       /\ ck_functions ck_test
          = [("k", O, dat_of (heap w') k_test);
             ("u", O, dat_of (heap w') u_test);
             ("u_obs", O, dat_of (heap w') u_obs_test)].
Proof.
  intros E. apply generate_data_Ok in E as (-> & E).
  pose proof (I : one_per_field (Str "poisson")) as Hfwd.
  pose proof (I : one_per_solution (Str "normal")) as Hnoise.
  split; [reflexivity|].
  destruct E as (ks & w1 & us & w2 & uos & w3 & ks_tr & k_te & us_tr & u_te
                 & uo_tr & uo_te & m & Hks & Hus & Hobs & Eks & Eus & Euos
                 & Hm & Hh & Htr & Hte).
  pose proof (solutions_length _ _ _ _ _ _ Hfwd Hus) as Lus.
  pose proof (observations_length _ _ _ _ _ _ _ Hnoise Hobs) as Luos.
  assert (Lks : length ks = Z.to_nat (ntrain + 1)).
  { destruct (default_stages_run V ntrain scale seed w)
      as (ks' & w1' & _ & _ & _ & Hks' & _ & _ & Hl & _).
    rewrite Hks in Hks'. injection Hks' as <- <-. exact Hl. }
  assert (Ltr : length ks_tr = Z.to_nat ntrain).
  { rewrite Eks, length_app in Lks. simpl in Lks. lia. }
  assert (Lks' : Z.of_nat (length ks) = ntrain + 1).
  { rewrite Eks, length_app in Lks |- *. simpl in *. lia. }
  exists ks, w1, us, w2, uos, w3, k_te, u_te, uo_te. eexists. eexists.
  split; [exact Hks|]. split; [exact Hus|]. split; [exact Hobs|].
  split; [exact Lks'|]. split; [lia|]. split; [lia|].
  split; [exact Htr|]. split; [reflexivity|].
  split; [|split; [exact Hte|]].
  - unfold holds_samples, enumerate. cbn [ck_functions].
    rewrite entries_names. f_equal. f_equal.
    apply length_zip3; auto.
    + rewrite Eus, Eks, !length_app in Lus. simpl in Lus. lia.
    + rewrite Euos, Eus, Eks, !length_app in *. simpl in *. lia.
  - split; [reflexivity|].
    rewrite Eks, Eus, Euos, !last_snoc_Some, Hh. repeat split; reflexivity.
Qed.

(** * Further properties of the generator *)

(** ** Objects allocated by the sampling and the forward stages *)

Lemma field_loop_fresh V m σ (Hm : m <> 0) :
  forall xs g acc w,
  exists ks g' w',
    for_in xs (field_step V m σ) (g, acc) w = (Ok (g', acc ++ ks), w')
    /\ NoDup ks
    /\ Forall (fun k => heap w !! k = None) ks
    /\ (forall l f, heap w !! l = Some f -> heap w' !! l = Some f).
Proof.
  induction xs as [|x xs IH]; intros g acc w.
  - exists [], g, w. simpl. unfold ret. rewrite app_nil_r.
    repeat split; auto. constructor.
  - cbn [for_in].
    pose proof (field_step_run V m σ x g acc w Hm) as Hs. cbv zeta in Hs.
    set (l := fresh (dom (heap w))) in *.
    set (w1 := emit _ _) in Hs.
    destruct (IH (snd (field_expr σ m g)) (acc ++ [l]) w1)
      as (ks & g' & w' & Hrun & Hnd & Hnew & Hkeep).
    assert (Hl1 : is_Some (heap w1 !! l)).
    { subst w1. cbn [heap emit set_heap]. rewrite lookup_insert_eq. eauto. }
    assert (Hw1 : forall k f, heap w !! k = Some f -> heap w1 !! k = Some f).
    { intros k f Hk. eapply lookup_weaken; [exact Hk|].
      subst w1 l. cbn [heap emit set_heap]. apply insert_fresh_subseteq. }
    exists (l :: ks), g', w'. repeat split.
    + rewrite (bind_Ok _ _ _ _ _ Hs), Hrun. now rewrite <- app_assoc.
    + constructor; [|exact Hnd]. intros Hin.
      rewrite Forall_forall in Hnew. specialize (Hnew _ Hin).
      destruct Hl1 as [f Hf]. congruence.
    + constructor; [apply fresh_loc_unused|].
      eapply Forall_impl; [exact Hnew|]. intros k Hk. cbv beta in Hk.
      destruct (heap w !! k) eqn:E; [|reflexivity].
      apply Hw1 in E. congruence.
    + intros k f Hk. apply Hkeep, Hw1, Hk.
Qed.

Lemma poisson_loop_fresh V f :
  forall ks acc w,
  exists us w',
    for_in ks (poisson_step V f) acc w = (Ok (acc ++ us), w')
    /\ NoDup us
    /\ Forall (fun u => heap w !! u = None) us
    /\ (forall l o, heap w !! l = Some o -> heap w' !! l = Some o).
Proof.
  induction ks as [|k ks IH]; intros acc w.
  - exists [], w. simpl. unfold ret. rewrite app_nil_r.
    repeat split; auto. constructor.
  - cbn [for_in].
    pose proof (poisson_step_run V f k acc w) as Hs. cbv zeta in Hs.
    set (u := fresh (dom (heap w))) in *.
    set (w1 := emit _ _) in Hs.
    destruct (IH (acc ++ [u]) w1) as (us & w' & Hrun & Hnd & Hnew & Hkeep).
    assert (Hh1 : exists d, heap w1 = <[u := mkFunction V d]> (heap w)).
    { eexists. subst w1. cbn [heap emit set_heap]. apply insert_insert_eq. }
    destruct Hh1 as (d & Hh1).
    assert (Hw1 : forall l o, heap w !! l = Some o -> heap w1 !! l = Some o).
    { intros l o Hl. eapply lookup_weaken; [exact Hl|].
      rewrite Hh1. apply insert_fresh_subseteq. }
    exists (u :: us), w'. repeat split.
    + rewrite (bind_Ok _ _ _ _ _ Hs), Hrun. now rewrite <- app_assoc.
    + constructor; [|exact Hnd]. intros Hin.
      rewrite Forall_forall in Hnew. specialize (Hnew _ Hin).
      rewrite Hh1, lookup_insert_eq in Hnew. discriminate.
    + constructor; [apply fresh_loc_unused|].
      eapply Forall_impl; [exact Hnew|]. intros l Hl. cbv beta in Hl.
      destruct (heap w !! l) eqn:E; [|reflexivity].
      apply Hw1 in E. congruence.
    + intros l o Hl. apply Hkeep, Hw1, Hl.
Qed.

(** ** What the built-in noise does to the data *)


Lemma Forall2_impl_elem {A B : Type} (P Q : A -> B -> Prop) :
  forall (l : list A) (k : list B),
  Forall2 P l k ->
  (forall x y, x ∈ l -> P x y -> Q x y) ->
  Forall2 Q l k.
Proof.
  intros l k H. induction H as [|x y l k Hxy _ IH]; intros Himp; constructor.
  - apply Himp; [left | exact Hxy].
  - apply IH. intros x' y' Hin. apply Himp. now right.
Qed.

Lemma noise_loop_data V scale : forall us acc w,
  NoDup us ->
  shaped V (heap w) us ->
  exists w',
    for_in us (noise_step V scale) acc w = (Ok (acc ++ us), w')
    /\ np_random w' = snd (noise_draws (dim V) (length us) (np_random w))
    /\ Forall2 (fun u d => exists f,
          heap w !! u = Some f
          /\ heap w' !! u
             = Some (mkFunction (function_space f)
                       (zip_with fadd (dat f) (map (fmul scale) d))))
        us (fst (noise_draws (dim V) (length us) (np_random w)))
    /\ (forall l, l ∉ us -> heap w' !! l = heap w !! l).
Proof.
  induction us as [|u us IH]; intros acc w Hnd Hsh.
  - exists w. simpl. unfold ret. rewrite app_nil_r. repeat split; auto.
  - pose proof (Forall_inv Hsh) as (f & Hu & Hl).
    pose proof (noise_step_run V scale u acc w f Hu Hl) as Hs. cbv zeta in Hs.
    apply NoDup_cons in Hnd as [Hnotin Hnd].
    set (w1 := set_heap _ _) in Hs.
    assert (Hh1 : heap w1 = <[u := mkFunction (function_space f)
                     (zip_with fadd (dat f)
                        (map (fmul scale) (fst (rand (dim V) (np_random w)))))]>
                    (heap w)) by reflexivity.
    assert (Hr1 : np_random w1 = snd (rand (dim V) (np_random w))) by reflexivity.
    destruct (IH (acc ++ [u]) w1 Hnd) as (w' & Hrun & Hnp & Hdata & Hframe).
    { rewrite Hh1. apply shaped_insert.
      - cbn [dat]. rewrite length_zip_with, length_map, rand_length. lia.
      - exact (Forall_inv_tail Hsh). }
    exists w'. cbn [length noise_draws]. rewrite Hr1 in Hnp, Hdata.
    destruct (rand (dim V) (np_random w)) as [d s1]. cbn [fst snd] in *.
    destruct (noise_draws (dim V) (length us) s1) as [rest s2]. cbn [fst snd] in *.
    repeat split.
    + cbn [for_in]. rewrite (bind_Ok _ _ _ _ _ Hs), Hrun. now rewrite <- app_assoc.
    + exact Hnp.
    + constructor.
      * exists f. split; [exact Hu|].
        rewrite (Hframe u Hnotin), Hh1. apply lookup_insert_eq.
      * eapply Forall2_impl_elem; [exact Hdata|].
        intros u' d' Hin (f' & Hu' & Hd'). exists f'. split; [|exact Hd'].
        rewrite Hh1 in Hu'.
        rewrite lookup_insert_ne in Hu'; [exact Hu'|].
        intros ->. contradiction.
    + intros l Hnl. apply not_elem_of_cons in Hnl as [Hne Hnl].
      rewrite (Hframe l Hnl), Hh1. now apply lookup_insert_ne.
Qed.

Lemma poisson_fresh V ks w :
  exists us w',
    poisson V ks w = (Ok us, w')
    /\ NoDup us
    /\ Forall (fun u => heap w !! u = None) us
    /\ (forall l o, heap w !! l = Some o -> heap w' !! l = Some o).
Proof.
  unfold poisson.
  rewrite (bind_Ok _ _ _ _ _ (interpolate_run source_term V w)).
  set (f := fresh (dom (heap w))). set (w1 := emit _ _).
  assert (Hw1 : forall l o, heap w !! l = Some o -> heap w1 !! l = Some o).
  { intros l o Hl. eapply lookup_weaken; [exact Hl|].
    subst w1 f. cbn [heap emit set_heap]. apply insert_fresh_subseteq. }
  destruct (poisson_loop_fresh V f ks [] w1) as (us & w' & Hrun & Hnd & Hnew & Hkeep).
  exists us, w'. repeat split; auto.
  eapply Forall_impl; [exact Hnew|]. intros l Hl. cbv beta in Hl.
  destruct (heap w !! l) eqn:E; [|reflexivity].
  apply Hw1 in E. congruence.
Qed.

Lemma length_field_exprs σ m : forall n g, length (field_exprs σ m n g) = n.
Proof.
  induction n as [|n IH]; intros g; simpl; [reflexivity|].
  destruct (field_expr σ m g). simpl. now rewrite IH.
Qed.

(** The built-in stages, with the data every object ends up with. *)
Lemma default_stages_data V ntrain scale seed w :
  let es := field_exprs (flit 14 (-1)) 15 (Z.to_nat (ntrain + 1)) (default_rng seed) in
  exists ks w1 us w2 w3,
    random_field V (ntrain + 1) 15 (flit 14 (-1)) seed w = (Ok ks, w1)
    /\ solutions V (Str "poisson") ks w1 = (Ok us, w2)
    /\ observations V (Str "normal") scale us w2 = (Ok us, w3)
    /\ length ks = Z.to_nat (ntrain + 1)
    /\ length us = length ks
    /\ Forall2 (fun k e => heap w3 !! k = Some (mkFunction V (interpolate_data e V)))
               ks es
    /\ Forall2 (fun k u => exists h,
          h !! k = dat <$> heap w3 !! k
          /\ heap w2 !! u
             = Some (mkFunction V
                       (solve_data V h
                          (poisson_call V k u (fresh (dom (heap w1)))))))
        ks us
    /\ Forall2 (fun u d => exists clean,
          heap w2 !! u = Some (mkFunction V clean)
          /\ heap w3 !! u
             = Some (mkFunction V (zip_with fadd clean (map (fmul scale) d))))
        us (fst (noise_draws (dim V) (length us) (np_random w)))
    /\ np_random w3 = snd (noise_draws (dim V) (length us) (np_random w))
    /\ (forall l o, heap w !! l = Some o -> heap w3 !! l = Some o)
    /\ files w3 = files w
    /\ global_mesh w3 = global_mesh w.
Proof.
  intros es.
  destruct (random_field_run V (ntrain + 1) 15 (flit 14 (-1)) seed w ltac:(lia))
    as (ks & w1 & Hks & Hsub1 & Hdata1 & _ & _ & Hnp1 & Hgm1 & Hfs1).
  destruct (poisson_run V ks w1)
    as (us & w2 & Hus & Hsub2 & _ & _ & Hsol & _ & Hnp2 & Hgm2 & Hfs2).
  destruct (poisson_fresh V ks w1) as (us' & w2' & Hus' & Hnd & Hnew & _).
  rewrite Hus in Hus'. injection Hus' as <- <-.
  assert (Hsh : shaped V (heap w2) us).
  { unfold shaped. clear -Hsol.
    induction Hsol as [|k u ks us (h & _ & _ & _ & Hu) _ IH]; constructor; [|exact IH].
    eexists. split; [exact Hu|]. apply solve_length. }
  destruct (noise_loop_data V scale us [] w2 Hnd Hsh)
    as (w3 & Hobs & Hnp3 & Hnoise & Hframe).
  destruct (noise_loop_run V scale us [] w2 Hsh) as (w3' & Hobs' & _ & _ & Hgm3 & Hfs3).
  rewrite Hobs in Hobs'. injection Hobs' as <-.
  assert (Hold : forall l o, heap w1 !! l = Some o -> heap w3 !! l = Some o).
  { intros l o Hl. rewrite Hframe.
    - eapply lookup_weaken; [exact Hl | exact Hsub2].
    - intros Hin. rewrite Forall_forall in Hnew. specialize (Hnew _ Hin). congruence. }
  exists ks, w1, us, w2, w3. repeat split.
  - exact Hks.
  - exact Hus.
  - exact Hobs.
  - rewrite (Forall2_length _ _ _ Hdata1). apply length_field_exprs.
  - symmetry. exact (Forall2_length _ _ _ Hsol).
  - eapply Forall2_impl; [exact Hdata1|]. intros k e Hk. now apply Hold.
  - eapply Forall2_impl_elem; [exact Hsol|].
    intros k u Hin (h & Hh & _ & _ & Hu). exists h. split; [|exact Hu].
    assert (Hk : is_Some (heap w1 !! k)).
    { clear -Hdata1 Hin. induction Hdata1 as [|k' e ks es Hk' _ IH].
      - inversion Hin.
      - apply elem_of_cons in Hin as [->|Hin]; eauto. }
    destruct Hk as [o Hk]. rewrite (Hold _ _ Hk). simpl.
    eapply lookup_weaken; [|exact Hh]. now rewrite lookup_fmap, Hk.
  - rewrite Hnp2, Hnp1 in Hnoise. eapply Forall2_impl_elem; [exact Hnoise|].
    intros u d Hin (f & Hu & Hd).
    assert (Hf : exists c, f = mkFunction V c).
    { clear -Hsol Hin Hu.
      assert (exists c, heap w2 !! u = Some (mkFunction V c)) as (c & Hc).
      { induction Hsol as [|k u' ks us (h & _ & _ & _ & Hu') _ IH].
        - inversion Hin.
        - apply elem_of_cons in Hin as [->|Hin]; eauto. }
      exists c. congruence. }
    destruct Hf as (c & ->). exists c. split; [exact Hu | exact Hd].
  - rewrite Hnp3, Hnp2, Hnp1. reflexivity.
  - intros l o Hl. apply Hold. eapply lookup_weaken; [exact Hl | exact Hsub1].
  - congruence.
  - congruence.
Qed.

(** ** Reading back what was saved *)

Lemma lookup_function_app name i (l1 l2 : list (string * nat * vec)) :
  lookup_function name i (l1 ++ l2)
  = match lookup_function name i l2 with
    | Some d => Some d
    | None => lookup_function name i l1
    end.
Proof.
  induction l1 as [|[[n j] d] l1 IH]; simpl.
  - now destruct (lookup_function name i l2).
  - rewrite IH. destruct (lookup_function name i l2); reflexivity.
Qed.

Lemma lookup_sample h name i j (x : loc * (loc * loc)) :
  lookup_function name i (sample_entries h (j, x))
  = if decide (j = i) then dat_of h <$> component name x else None.
Proof.
  destruct x as (k & u & uo). unfold component.
  cbn [sample_entries lookup_function fst snd].
  destruct (decide (j = i)) as [->|Hji];
    [destruct (decide (name = "k")) as [->|Hk];
       [|destruct (decide (name = "u")) as [->|Hu];
          [|destruct (decide (name = "u_obs")) as [->|Ho]]]|];
    repeat match goal with
           | |- context [decide (?a = ?b /\ ?c = ?d)] =>
               destruct (decide (a = b /\ c = d)) as [[? ?]|?]
           end;
    try discriminate; try reflexivity; exfalso; intuition congruence.
Qed.

Lemma lookup_entries h name : forall (xs : list (loc * (loc * loc))) s i,
  lookup_function name i (flat_map (sample_entries h) (zip (seq s (length xs)) xs))
  = if decide (s <= i)%nat
    then xs !! (i - s)%nat ≫= (fun x => dat_of h <$> component name x)
    else None.
Proof.
  induction xs as [|x xs IH]; intros s i.
  - simpl. destruct (decide (s <= i)%nat); reflexivity.
  - cbn [length seq zip zip_with flat_map].
    change (zip_with pair (seq (S s) (length xs)) xs)
      with (zip (seq (S s) (length xs)) xs).
    rewrite lookup_function_app, IH, lookup_sample.
    destruct (decide (S s <= i)%nat) as [Hlt|Hge].
    + destruct (decide (s <= i)%nat) as [_|]; [|lia].
      replace (i - s)%nat with (S (i - S s)) by lia. cbn [lookup list_lookup].
      destruct (xs !! (i - S s)%nat ≫= _) eqn:E; [reflexivity|].
      destruct (decide (s = i)); [lia | reflexivity].
    + destruct (decide (s = i)) as [->|Hne].
      * destruct (decide (i <= i)%nat) as [_|]; [|lia].
        now rewrite Nat.sub_diag.
      * destruct (decide (s <= i)%nat); [lia | reflexivity].
Qed.

Lemma load_enumerated h attrs ms name (xs : list (loc * (loc * loc))) i :
  load_function (mkCheckpoint attrs ms (flat_map (sample_entries h) (enumerate xs)))
                name i
  = xs !! i ≫= (fun x => dat_of h <$> component name x).
Proof.
  unfold load_function, enumerate. cbn [ck_functions].
  rewrite lookup_entries. destruct (decide (0 <= i)%nat); [|lia].
  now rewrite Nat.sub_0_r.
Qed.

Lemma lookup_zip3 {A B C : Type} (xs : list A) (ys : list B) (zs : list C) i :
  zip xs (zip ys zs) !! i
  = (x ← xs !! i; y ← ys !! i; z ← zs !! i; Some (x, (y, z))).
Proof.
  rewrite lookup_zip_with. destruct (xs !! i) as [x|]; [|reflexivity].
  cbn [mbind option_bind]. rewrite lookup_zip_with.
  destruct (ys !! i), (zs !! i); reflexivity.
Qed.

(** ** Edge cases of the sampler *)

(** X1: asking [random_field] for at least one field with a mode count of
    zero raises [ZeroDivisionError] (from [1 / m]) before anything is
    interpolated; the world is left as it was. *)
Theorem random_field_without_modes V N σ seed w :
  0 < N ->
  random_field V N 0 σ seed w = (Raise ZeroDivisionError, w).
Proof. apply random_field_zero_modes. Qed.

(** X2: asking [random_field] for no field, or for a negative number of
    fields, returns the empty list and does nothing, whatever the mode count
    (zero included). *)
Theorem random_field_nothing_asked V N m σ seed w :
  N <= 0 ->
  random_field V N m σ seed w = (Ok [], w).
Proof. apply random_field_no_field. Qed.

(** X3: for a positive mode count, [random_field] returns [N] pairwise
    distinct objects, none of which existed before; every function that
    existed keeps its space and data, and the process-wide random generator,
    the global [mesh] and the files are not touched. *)
Theorem random_field_allocates V N m σ seed w :
  0 < m ->
  exists ks w',
    random_field V N m σ seed w = (Ok ks, w')
    /\ length ks = Z.to_nat N
    /\ NoDup ks
    /\ Forall (fun k => heap w !! k = None) ks
    /\ (forall l f, heap w !! l = Some f -> heap w' !! l = Some f)
    /\ np_random w' = np_random w
    /\ global_mesh w' = global_mesh w
    /\ files w' = files w.
Proof.
  intros Hpos. assert (Hm : m <> 0) by lia.
  destruct (random_field_run V N m σ seed w Hm)
    as (ks & w' & Hrun & _ & Hdata & _ & _ & Hnp & Hgm & Hfs).
  destruct (field_loop_fresh V m σ Hm (range N) (default_rng seed) [] w)
    as (ks' & g' & w'' & Hloop & Hnd & Hnew & Hkeep).
  assert (ks' = ks /\ w'' = w') as [-> ->].
  { unfold random_field in Hrun. rewrite (bind_Ok _ _ _ _ _ Hloop) in Hrun.
    unfold ret in Hrun. simpl in Hrun. now injection Hrun. }
  exists ks, w'. repeat split; auto.
  rewrite (Forall2_length _ _ _ Hdata). apply length_field_exprs.
Qed.

(** ** Runs of the built-in pipeline *)

Lemma poisson_nil V w :
  exists w', poisson V [] w = (Ok [], w')
             /\ files w' = files w
             /\ solve_calls (log w') = solve_calls (log w).
Proof.
  destruct (poisson_run V [] w) as (us & w' & Hrun & _ & _ & _ & Hsol & Hlog & _ & _ & Hfs).
  inversion Hsol; subst. exists w'. repeat split; auto.
  rewrite Hlog, solve_calls_app. simpl. apply app_nil_r.
Qed.

Lemma default_negative_ntrain V data_dir ntrain scale seed w :
  ntrain < 0 ->
  exists w',
    generate_data V data_dir ntrain 1 (Str "poisson") (Str "normal") scale seed w
    = (Raise (ValueError "not enough values to unpack (expected at least 1, got 0)"),
       w')
    /\ solve_calls (log w') = solve_calls (log w)
    /\ heap w' !! fresh (dom (heap w))
       = Some (mkFunction V (interpolate_data source_term V))
    /\ files w' = files w.
Proof.
  intros Hn.
  pose proof (random_field_no_field V (ntrain + 1) 15 (flit 14 (-1)) seed w
                ltac:(lia)) as Hks.
  destruct (poisson_run V [] w)
    as (us & w' & Hus & _ & Hf & _ & Hsol & Hlog & _ & _ & Hfs).
  inversion Hsol; subst. exists w'. repeat split; auto.
  - rewrite (generate_data_after_forward V data_dir ntrain (Str "poisson")
               (Str "normal") scale seed w [] w [] w' Hks Hus).
    reflexivity.
  - rewrite Hlog, solve_calls_app. simpl. apply app_nil_r.
Qed.

(** X4: with the built-in stages and a negative [ntrain] (and [ntest = 1]),
    no field is sampled and no problem solved, and [generate_data] raises
    [ValueError] when it splits the empty list of fields; only the source
    term has been interpolated, and no file is touched. *)
Theorem generate_data_negative_ntrain V data_dir ntrain scale seed w :
  ntrain < 0 ->
  exists w',
    generate_data V data_dir ntrain 1 (Str "poisson") (Str "normal") scale seed w
    = (Raise (ValueError "not enough values to unpack (expected at least 1, got 0)"),
       w')
    /\ solve_calls (log w') = solve_calls (log w)
    /\ heap w' !! fresh (dom (heap w))
       = Some (mkFunction V (interpolate_data source_term V))
    /\ files w' = files w.
Proof. apply default_negative_ntrain. Qed.

(** ** What the save step leaves alone *)

Section Keeps.
Variable R : World -> World -> Prop.
Hypothesis R_refl : forall w, R w w.
Hypothesis R_trans : forall w1 w2 w3, R w1 w2 -> R w2 w3 -> R w1 w3.

Lemma keeps_ret {A : Type} (a : A) : keeps R (ret a).
Proof. intros w r w' [= <- <-]. apply R_refl. Qed.

Lemma keeps_raise {A : Type} (e : exn) : keeps R (raise (A := A) e).
Proof. intros w r w' [= <- <-]. apply R_refl. Qed.

Lemma keeps_bind {A B : Type} (c : M A) (k : A -> M B) :
  keeps R c -> (forall a, keeps R (k a)) -> keeps R (bind c k).
Proof.
  intros Hc Hk w r w' E. unfold bind in E.
  destruct (c w) as [[a|e] w1] eqn:Ec.
  - eapply R_trans; [exact (Hc _ _ _ Ec) | exact (Hk _ _ _ _ E)].
  - injection E as <- <-. exact (Hc _ _ _ Ec).
Qed.

Lemma keeps_for_in {A S : Type} (body : A -> S -> M S) :
  (forall x s, keeps R (body x s)) ->
  forall xs s, keeps R (for_in xs body s).
Proof.
  intros Hb. induction xs as [|x xs IH]; intros s; cbn [for_in].
  - apply keeps_ret.
  - apply keeps_bind; [apply Hb | intros s'; apply IH].
Qed.

Lemma keeps_modify (f : World -> World) :
  (forall w, R w (f w)) -> keeps R (modify f).
Proof. intros Hf w r w' [= <- <-]. apply Hf. Qed.

Lemma keeps_deref (l : loc) : keeps R (deref l).
Proof.
  intros w r w' E. unfold deref in E.
  destruct (heap w !! l); injection E as <- <-; apply R_refl.
Qed.

Lemma keeps_read_global_mesh : keeps R read_global_mesh.
Proof.
  intros w r w' E. unfold read_global_mesh in E.
  destruct (global_mesh w); injection E as <- <-; apply R_refl.
Qed.

(** The save step is made of these. *)
Lemma keeps_save_function path l idx name :
  (forall f w, R w (emit (EvSaveFunction path name idx l)
                      (update_file path (add_functions [(name, idx, dat f)]) w))) ->
  keeps R (save_function path l idx name).
Proof.
  intros Hf. unfold save_function. apply keeps_bind; [apply keeps_deref|].
  intros f. apply keeps_modify. intros w. apply Hf.
Qed.

End Keeps.

Lemma touches_only_refl path w : touches_only path w w.
Proof. unfold touches_only. auto. Qed.

Lemma touches_only_trans path w1 w2 w3 :
  touches_only path w1 w2 -> touches_only path w2 w3 -> touches_only path w1 w3.
Proof.
  intros (H1 & N1 & G1 & F1) (H2 & N2 & G2 & F2). unfold touches_only.
  repeat split; try congruence. intros p Hp. rewrite F2, F1; auto.
Qed.

Lemma touches_only_alter path f e w :
  touches_only path w (emit e (update_file path f w)).
Proof.
  unfold touches_only, update_file. cbn [heap np_random global_mesh files emit set_files].
  repeat split; auto. intros p Hp. now apply lookup_alter_ne.
Qed.

Lemma touches_only_open path w :
  touches_only path w
    (emit (EvOpen path) (set_files (<[path := empty_checkpoint]> (files w)) w)).
Proof.
  unfold touches_only. cbn [heap np_random global_mesh files emit set_files].
  repeat split; auto. intros p Hp. now apply lookup_insert_ne.
Qed.

Lemma save_sample_touches_only path s :
  keeps (touches_only path) (save_sample path s tt).
Proof.
  destruct s as (i & k & u & uo). unfold save_sample.
  pose proof (touches_only_refl path) as Hr.
  pose proof (touches_only_trans path) as Ht.
  assert (Hsf : forall l idx name,
             keeps (touches_only path) (save_function path l idx name)).
  { intros l idx name. apply keeps_save_function; auto.
    intros f w. apply touches_only_alter. }
  apply keeps_bind; auto. intros _. apply keeps_bind; auto.
Qed.

Lemma save_train_touches_only data_dir ntrain ks us uos :
  keeps (touches_only (train_path data_dir)) (save_train data_dir ntrain ks us uos).
Proof.
  unfold save_train. fold (train_path data_dir).
  pose proof (touches_only_refl (train_path data_dir)) as Hr.
  pose proof (touches_only_trans (train_path data_dir)) as Ht.
  apply keeps_bind; auto.
  { apply keeps_modify. intros w. apply touches_only_open. }
  intros _. apply keeps_bind; auto.
  { apply keeps_modify. intros w. apply touches_only_alter. }
  intros _. apply keeps_bind; auto.
  { now apply keeps_read_global_mesh. }
  intros m. apply keeps_bind; auto.
  { apply keeps_modify. intros w. apply touches_only_alter. }
  intros _. apply keeps_for_in; auto.
  intros s []. apply save_sample_touches_only.
Qed.

Lemma save_test_touches_only data_dir ntest k u uo :
  keeps (touches_only (test_path data_dir)) (save_test data_dir ntest k u uo).
Proof.
  unfold save_test. fold (test_path data_dir).
  pose proof (touches_only_refl (test_path data_dir)) as Hr.
  pose proof (touches_only_trans (test_path data_dir)) as Ht.
  apply keeps_bind; auto.
  { apply keeps_modify. intros w. apply touches_only_open. }
  intros _. apply keeps_bind; auto.
  { apply keeps_modify. intros w. apply touches_only_alter. }
  intros _. apply keeps_bind; auto.
  { now apply keeps_read_global_mesh. }
  intros m. apply keeps_bind; auto.
  { apply keeps_modify. intros w. apply touches_only_alter. }
  intros _. apply (save_sample_touches_only _ (O, (k, (u, uo)))).
Qed.

Lemma after_forward_frame V data_dir ntrain noise scale ks us w2 w' :
  after_forward V data_dir ntrain 1 noise scale ks us w2 = (Ok tt, w') ->
  exists us_obs w3,
    observations V noise scale us w2 = (Ok us_obs, w3)
    /\ heap w' = heap w3
    /\ np_random w' = np_random w3
    /\ global_mesh w' = global_mesh w3
    /\ forall p, p <> train_path data_dir -> p <> test_path data_dir ->
                 files w' !! p = files w3 !! p.
Proof.
  unfold after_forward. intros E.
  apply bind_Ok_inv in E as (uos & w3 & Hobs & E).
  apply bind_Ok_inv in E as ([ks_tr k_te] & w4 & E4 & E).
  apply unpack_last_Ok in E4 as [-> _].
  apply bind_Ok_inv in E as ([us_tr u_te] & w5 & E5 & E).
  apply unpack_last_Ok in E5 as [-> _].
  apply bind_Ok_inv in E as ([uo_tr uo_te] & w6 & E6 & E).
  apply unpack_last_Ok in E6 as [-> _].
  apply bind_Ok_inv in E as ([] & w7 & Etr & Ete).
  apply save_train_touches_only in Etr as (H1 & N1 & G1 & F1).
  apply save_test_touches_only in Ete as (H2 & N2 & G2 & F2).
  exists uos, w3. repeat split; try congruence.
  intros p Hp1 Hp2. rewrite F2, F1; auto.
Qed.

Lemma component_k x : component "k" x = Some (fst x).
Proof. reflexivity. Qed.
Lemma component_u x : component "u" x = Some (fst (snd x)).
Proof. reflexivity. Qed.
Lemma component_u_obs x : component "u_obs" x = Some (snd (snd x)).
Proof. reflexivity. Qed.

(** What the two files of a successful run hold, index by index. *)
Lemma generate_data_contents V data_dir ntrain ntest forward noise scale seed w w' :
  generate_data V data_dir ntrain ntest forward noise scale seed w = (Ok tt, w') ->
  one_per_field forward ->
  one_per_solution noise ->
  let n := Z.to_nat ntrain in
  exists ks w1 us w2 us_obs w3 m ck_train ck_test,
    random_field V (ntrain + 1) 15 (flit 14 (-1)) seed w = (Ok ks, w1)
    /\ solutions V forward ks w1 = (Ok us, w2)
    /\ observations V noise scale us w2 = (Ok us_obs, w3)
    /\ 0 <= ntrain
    /\ length ks = S n /\ length us = S n /\ length us_obs = S n
    /\ global_mesh w3 = Some m
    /\ heap w' = heap w3
    /\ files w' !! train_path data_dir = Some ck_train
    /\ files w' !! test_path data_dir = Some ck_test
    /\ ck_meshes ck_train = [m] /\ ck_meshes ck_test = [m]
    /\ (forall i, (i < n)%nat ->
          load_function ck_train "k" i = saved_data (heap w') ks i
          /\ load_function ck_train "u" i = saved_data (heap w') us i
          /\ load_function ck_train "u_obs" i = saved_data (heap w') us_obs i)
    /\ (forall i name, (n <= i)%nat -> load_function ck_train name i = None)
    /\ load_function ck_test "k" 0 = saved_data (heap w') ks n
    /\ load_function ck_test "u" 0 = saved_data (heap w') us n
    /\ load_function ck_test "u_obs" 0 = saved_data (heap w') us_obs n.
Proof.
  intros E Hfwd Hnoise n. apply generate_data_Ok in E as (-> & E).
  destruct E as (ks & w1 & us & w2 & uos & w3 & ks_tr & k_te & us_tr & u_te
                 & uo_tr & uo_te & m & Hks & Hus & Hobs & Eks & Eus & Euos
                 & Hm & Hh & Htr & Hte).
  pose proof (solutions_length _ _ _ _ _ _ Hfwd Hus) as Lus.
  pose proof (observations_length _ _ _ _ _ _ _ Hnoise Hobs) as Luos.
  assert (Lks : length ks = Z.to_nat (ntrain + 1)).
  { destruct (default_stages_run V ntrain scale seed w)
      as (ks' & w1' & _ & _ & _ & Hks' & _ & _ & Hl & _).
    rewrite Hks in Hks'. injection Hks' as <- <-. exact Hl. }
  assert (Hn : 0 <= ntrain).
  { rewrite Eks, length_app in Lks. simpl in Lks. lia. }
  assert (Lk : length ks_tr = n).
  { rewrite Eks, length_app in Lks. simpl in Lks. subst n. lia. }
  assert (Lu : length us_tr = n).
  { rewrite Eus, Eks, !length_app in Lus. simpl in Lus. lia. }
  assert (Lo : length uo_tr = n).
  { rewrite Euos, Eus, !length_app in Luos. simpl in Luos. lia. }
  exists ks, w1, us, w2, uos, w3, m. eexists. eexists.
  split; [exact Hks|]. split; [exact Hus|]. split; [exact Hobs|].
  split; [exact Hn|].
  split; [rewrite Eks, length_app; simpl; lia|].
  split; [rewrite Eus, length_app; simpl; lia|].
  split; [rewrite Euos, length_app; simpl; lia|].
  split; [exact Hm|]. split; [exact Hh|].
  split; [exact Htr|]. split; [exact Hte|].
  split; [reflexivity|]. split; [reflexivity|].
  rewrite Hh. unfold saved_data.
  split; [|split; [|split; [|split]]].
  - intros i Hi. rewrite !load_enumerated, lookup_zip3.
    destruct (lookup_lt_is_Some_2 ks_tr i ltac:(lia)) as [k Hk].
    destruct (lookup_lt_is_Some_2 us_tr i ltac:(lia)) as [u Hu].
    destruct (lookup_lt_is_Some_2 uo_tr i ltac:(lia)) as [o Ho].
    rewrite Hk, Hu, Ho. cbn [mbind option_bind].
    rewrite component_k, component_u, component_u_obs. cbn [fst snd].
    rewrite Eks, Eus, Euos.
    rewrite !lookup_app_l by lia. rewrite Hk, Hu, Ho. auto.
  - intros i name Hi. rewrite load_enumerated, lookup_zip3.
    rewrite (lookup_ge_None_2 ks_tr i) by lia. reflexivity.
  - unfold load_function. cbn [ck_functions]. rewrite lookup_sample.
    cbn [decide]. rewrite component_k, Eks. cbn [fst].
    rewrite list_lookup_middle by (symmetry; exact Lk). reflexivity.
  - unfold load_function. cbn [ck_functions]. rewrite lookup_sample.
    cbn [decide]. rewrite component_u, Eus. cbn [fst snd].
    rewrite list_lookup_middle by (symmetry; exact Lu). reflexivity.
  - unfold load_function. cbn [ck_functions]. rewrite lookup_sample.
    cbn [decide]. rewrite component_u_obs, Euos. cbn [fst snd].
    rewrite list_lookup_middle by (symmetry; exact Lo). reflexivity.
Qed.

(** X6: in a successful run with the built-in forward problem and the
    built-in noise, sample [i] of train_data.h5 is made of the data that the
    [i]-th field, solution and observation hold when the run ends, for every
    [i < ntrain]; nothing is stored at higher indices; and the sample of
    test_data.h5 is made of the data of the field, solution and observation
    of index [ntrain]. *)
Theorem generate_data_sample_order V data_dir ntrain ntest scale seed w w' :
  generate_data V data_dir ntrain ntest (Str "poisson") (Str "normal") scale
    seed w = (Ok tt, w') ->
  let n := Z.to_nat ntrain in
  exists ks w1 us w2 us_obs w3 ck_train ck_test,
    random_field V (ntrain + 1) 15 (flit 14 (-1)) seed w = (Ok ks, w1)
    /\ solutions V (Str "poisson") ks w1 = (Ok us, w2)
    /\ observations V (Str "normal") scale us w2 = (Ok us_obs, w3)
    /\ files w' !! train_path data_dir = Some ck_train
    /\ files w' !! test_path data_dir = Some ck_test
    /\ (forall i, (i < n)%nat ->
          load_function ck_train "k" i = saved_data (heap w') ks i
          /\ load_function ck_train "u" i = saved_data (heap w') us i
          /\ load_function ck_train "u_obs" i = saved_data (heap w') us_obs i)
    /\ (forall i name, (n <= i)%nat -> load_function ck_train name i = None)
    /\ load_function ck_test "k" 0 = saved_data (heap w') ks n
    /\ load_function ck_test "u" 0 = saved_data (heap w') us n
    /\ load_function ck_test "u_obs" 0 = saved_data (heap w') us_obs n.
Proof.
  intros E n.
  destruct (generate_data_contents _ _ _ _ _ _ _ _ _ _ E I I)
    as (ks & w1 & us & w2 & uo & w3 & m & ckt & cke & H1 & H2 & H3 & _ & _ & _ & _
        & _ & _ & H4 & H5 & _ & _ & H6 & H7 & H8 & H9 & H10).
  exists ks, w1, us, w2, uo, w3, ckt, cke. repeat split; auto; apply H6; auto.
Qed.

(** A successful default run, with the data of every object it saved. *)
Lemma default_contents V data_dir ntrain scale seed w w' :
  generate_data V data_dir ntrain 1 (Str "poisson") (Str "normal") scale seed w
  = (Ok tt, w') ->
  let n := Z.to_nat ntrain in
  let es := field_exprs (flit 14 (-1)) 15 (S n) (default_rng seed) in
  let ds := fst (noise_draws (dim V) (S n) (np_random w)) in
  exists ks us f m ck_train ck_test,
    0 <= ntrain /\ length ks = S n /\ length us = S n
    /\ global_mesh w = Some m
    /\ files w' !! train_path data_dir = Some ck_train
    /\ files w' !! test_path data_dir = Some ck_test
    /\ ck_meshes ck_train = [m] /\ ck_meshes ck_test = [m]
    /\ (forall i k e, ks !! i = Some k -> es !! i = Some e ->
          dat_of (heap w') k = interpolate_data e V)
    /\ (forall i k u e d,
          ks !! i = Some k -> us !! i = Some u ->
          es !! i = Some e -> ds !! i = Some d ->
          exists h,
            h !! k = Some (interpolate_data e V)
            /\ dat_of (heap w') u
               = zip_with fadd (solve_data V h (poisson_call V k u f))
                               (map (fmul scale) d))
    /\ (forall i, (i < n)%nat ->
          load_function ck_train "k" i = saved_data (heap w') ks i
          /\ load_function ck_train "u" i = saved_data (heap w') us i
          /\ load_function ck_train "u_obs" i = saved_data (heap w') us i)
    /\ load_function ck_test "k" 0 = saved_data (heap w') ks n
    /\ load_function ck_test "u" 0 = saved_data (heap w') us n
    /\ load_function ck_test "u_obs" 0 = saved_data (heap w') us n.
Proof.
  intros E n es ds.
  destruct (generate_data_contents _ _ _ _ _ _ _ _ _ _ E I I)
    as (ks & w1 & us & w2 & uo & w3 & m & ckt & cke & Hks & Hus & Hobs & Hn & Lk
        & Lu & _ & Hm & Hh & Htr & Hte & Mt & Me & Htrain & _ & Tk & Tu & To).
  destruct (default_stages_data V ntrain scale seed w)
    as (ks' & w1' & us' & w2' & w3' & Hks' & Hus' & Hobs' & _ & _ & Dk & Ds & Dn
        & _ & _ & _ & Hgm).
  rewrite Hks in Hks'. injection Hks' as <- <-.
  rewrite Hus in Hus'. injection Hus' as <- <-.
  rewrite Hobs in Hobs'. injection Hobs' as -> <-.
  cbv zeta in Dk. fold n in Lk, Lu, Htrain, Tk, Tu, To.
  replace (Z.to_nat (ntrain + 1)) with (S n) in Dk by (subst n; lia).
  rewrite Lu in Dn. fold es in Dk. fold ds in Dn.
  exists ks, us, (fresh (dom (heap w1))), m, ckt, cke.
  split; [exact Hn|]. split; [exact Lk|]. split; [exact Lu|].
  split; [congruence|]. split; [exact Htr|]. split; [exact Hte|].
  split; [exact Mt|]. split; [exact Me|].
  assert (Hfield : forall i k e, ks !! i = Some k -> es !! i = Some e ->
                     heap w3 !! k = Some (mkFunction V (interpolate_data e V))).
  { intros i k e Hk He. exact (Forall2_lookup_lr _ _ _ _ _ _ Dk Hk He). }
  split; [|split; [|split; [exact Htrain|auto]]].
  - intros i k e Hk He. unfold dat_of. rewrite Hh, (Hfield i k e Hk He).
    reflexivity.
  - intros i k u e d Hk Hu He Hd.
    destruct (Forall2_lookup_lr _ _ _ _ _ _ Ds Hk Hu) as (h & Hhk & Hclean).
    destruct (Forall2_lookup_lr _ _ _ _ _ _ Dn Hu Hd) as (c & Hc & Hnoisy).
    rewrite Hclean in Hc. injection Hc as <-.
    exists h. split.
    + transitivity (dat <$> heap w3 !! k); [exact Hhk|].
      rewrite (Hfield i k e Hk He). reflexivity.
    + unfold dat_of. rewrite Hh, Hnoisy. reflexivity.
Qed.

(** ** What the built-in noise does to the heap *)






(** X7: in a successful run with the built-in stages, the function saved
    under the name k at index [i] of train_data.h5 (for [i < ntrain]), and
    at index 0 of test_data.h5 (for [i = ntrain]), carries the coefficients
    of the interpolant of the [i]-th sampled expression: neither the solver
    nor the noise has altered the fields. *)
Theorem generate_data_default_saves_fields V data_dir ntrain scale seed w w' :
  generate_data V data_dir ntrain 1 (Str "poisson") (Str "normal") scale seed w
  = (Ok tt, w') ->
  let n := Z.to_nat ntrain in
  let es := field_exprs (flit 14 (-1)) 15 (S n) (default_rng seed) in
  exists ck_train ck_test,
    files w' !! train_path data_dir = Some ck_train
    /\ files w' !! test_path data_dir = Some ck_test
    /\ forall i e, es !! i = Some e ->
         ((i < n)%nat ->
            load_function ck_train "k" i = Some (interpolate_data e V))
         /\ (i = n ->
            load_function ck_test "k" 0 = Some (interpolate_data e V)).
Proof.
  intros E n es.
  destruct (default_contents _ _ _ _ _ _ _ E)
    as (ks & us & f & m & ckt & cke & Hn & Lk & Lu & _ & Htr & Hte & _ & _ & Hfield
        & _ & Htrain & Tk & _).
  fold n in Lk, Lu, Htrain, Tk. fold es in Hfield.
  exists ckt, cke. split; [exact Htr|]. split; [exact Hte|].
  intros i e He.
  assert (Hi : (i < S n)%nat).
  { apply lookup_lt_Some in He. subst es. now rewrite length_field_exprs in He. }
  destruct (lookup_lt_is_Some_2 ks i ltac:(lia)) as [k Hk].
  pose proof (Hfield i k e Hk He) as Hd.
  split.
  - intros Hlt. destruct (Htrain i Hlt) as (-> & _).
    unfold saved_data. rewrite Hk. simpl. now rewrite Hd.
  - intros ->. rewrite Tk. unfold saved_data. rewrite Hk. simpl. now rewrite Hd.
Qed.


(** X9: a successful run with the built-in stages changes no file other
    than train_data.h5 and test_data.h5 of its directory, leaves every
    function that existed before with its data, leaves the global [mesh] as
    it was, and advances the process-wide random generator by exactly
    [ntrain + 1] calls [np.random.rand(V.dim())]. *)
Theorem generate_data_default_frame V data_dir ntrain scale seed w w' :
  generate_data V data_dir ntrain 1 (Str "poisson") (Str "normal") scale seed w
  = (Ok tt, w') ->
  (forall p, p <> train_path data_dir -> p <> test_path data_dir ->
             files w' !! p = files w !! p)
  /\ (forall l f, heap w !! l = Some f -> heap w' !! l = Some f)
  /\ global_mesh w' = global_mesh w
  /\ np_random w'
     = snd (noise_draws (dim V) (Z.to_nat (ntrain + 1)) (np_random w)).
Proof.
  intros E.
  destruct (default_stages_data V ntrain scale seed w)
    as (ks & w1 & us & w2 & w3 & Hks & Hus & Hobs & Lk & Lu & _ & _ & _
        & Hnp & Hold & Hfs & Hgm).
  rewrite (generate_data_after_forward V data_dir ntrain (Str "poisson")
             (Str "normal") scale seed w ks w1 us w2 Hks Hus) in E.
  apply after_forward_frame in E as (uo & w3' & Hobs' & Hh & Hn & Hg & Hf).
  rewrite Hobs in Hobs'. injection Hobs' as <- <-.
  repeat split.
  - intros p Hp1 Hp2. rewrite Hf, Hfs; auto.
  - intros l f Hl. rewrite Hh. now apply Hold.
  - congruence.
  - rewrite Hn, Hnp, Lu, Lk. reflexivity.
Qed.

(** ** The noise stage on its own *)

(** X10: given pairwise distinct functions with [V.dim()] coefficients each,
    the built-in noise returns the same objects, has added to the [i]-th one
    [scale_noise] times the [i]-th array drawn from the process-wide
    generator, has advanced that generator by one draw per function, and has
    changed no other object and no file. *)
Theorem normal_noise_adds_scaled_draws V scale us w :
  NoDup us ->
  shaped V (heap w) us ->
  exists w',
    observations V (Str "normal") scale us w = (Ok us, w')
    /\ np_random w' = snd (noise_draws (dim V) (length us) (np_random w))
    /\ Forall2 (fun u d => exists f,
          heap w !! u = Some f
          /\ heap w' !! u
             = Some (mkFunction (function_space f)
                       (zip_with fadd (dat f) (map (fmul scale) d))))
        us (fst (noise_draws (dim V) (length us) (np_random w)))
    /\ (forall l, l ∉ us -> heap w' !! l = heap w !! l)
    /\ files w' = files w.
Proof.
  intros Hnd Hsh.
  destruct (noise_loop_data V scale us [] w Hnd Hsh) as (w' & Hrun & Hnp & Hd & Hfr).
  destruct (noise_loop_run V scale us [] w Hsh) as (w'' & Hrun' & _ & _ & _ & Hfs).
  rewrite Hrun in Hrun'. injection Hrun' as <-.
  exists w'. repeat split; auto.
Qed.

(** ** The script *)

Lemma unknown_forward_raises V data_dir ntrain forward noise scale seed w :
  unknown_selector "poisson" forward ->
  fst (generate_data V data_dir ntrain 1 forward noise scale seed w)
  = Raise (NotImplementedError msg_forward).
Proof.
  intros Hu.
  destruct (random_field_run V (ntrain + 1) 15 (flit 14 (-1)) seed w ltac:(lia))
    as (ks & w' & Hrun & _).
  unfold generate_data. destruct (decide (1 <> 1)) as [|_]; [contradiction|].
  rewrite (bind_Ok _ _ _ _ _ Hrun).
  erewrite bind_Raise; [reflexivity|]. now apply solutions_unknown.
Qed.

Lemma unknown_noise_raises V data_dir ntrain noise scale seed w :
  unknown_selector "normal" noise ->
  fst (generate_data V data_dir ntrain 1 (Str "poisson") noise scale seed w)
  = Raise (NotImplementedError msg_noise).
Proof.
  intros Hu.
  destruct (random_field_run V (ntrain + 1) 15 (flit 14 (-1)) seed w ltac:(lia))
    as (ks & w1 & Hks & _).
  destruct (poisson_run V ks w1) as (us & w2 & Hus & _).
  rewrite (generate_data_after_forward V data_dir ntrain (Str "poisson") noise
             scale seed w ks w1 us w2 Hks Hus).
  unfold after_forward. erewrite bind_Raise; [reflexivity|].
  now apply observations_unknown.
Qed.

Lemma main_unfold (args : Args) w :
  main args w
  = generate_data
      (mkFunctionSpace
         (RectangleMesh (arg_nx args) (arg_ny args) (arg_Lx args) (arg_Ly args) "mesh")
         "CG" (arg_degree args))
      (path_join (path_join (arg_resources_dir args) "datasets") (arg_name_dir args))
      (arg_ntrain args) 1 (Str (arg_forward args)) (Str (arg_noise args))
      (arg_scale_noise args) 1234
      (set_global_mesh
         (Some (RectangleMesh (arg_nx args) (arg_ny args) (arg_Lx args)
                  (arg_Ly args) "mesh")) w).
Proof. reflexivity. Qed.

Lemma main_Ok_args (args : Args) w w' :
  main args w = (Ok tt, w') ->
  arg_forward args = "poisson" /\ arg_noise args = "normal" /\ 0 <= arg_ntrain args.
Proof.
  rewrite main_unfold. intros E.
  destruct (decide (arg_forward args = "poisson")) as [Hf|Hf].
  2:{ apply (f_equal fst) in E. rewrite unknown_forward_raises in E by exact Hf.
      discriminate. }
  rewrite Hf in E.
  destruct (decide (arg_noise args = "normal")) as [Hn|Hn].
  2:{ apply (f_equal fst) in E. rewrite unknown_noise_raises in E by exact Hn.
      discriminate. }
  rewrite Hn in E.
  repeat split; auto.
  destruct (Z_lt_le_dec (arg_ntrain args) 0) as [Hneg|]; [|assumption].
  edestruct default_negative_ntrain as (w'' & E' & _); [exact Hneg|].
  rewrite E' in E. discriminate.
Qed.


(** X12: when the script succeeds, both files lie in
    [resources_dir/datasets/name_dir], both hold the rectangle mesh built
    from [nx], [ny], [Lx], [Ly] under the name mesh, train_data.h5 carries
    the attribute [ntrain] with the requested count and test_data.h5 the
    attribute [ntest] with 1; the global [mesh] stays bound to that mesh. *)
Theorem main_writes_mesh_and_counts (args : Args) (w w' : World) :
  main args w = (Ok tt, w') ->
  let mesh := RectangleMesh (arg_nx args) (arg_ny args) (arg_Lx args)
                (arg_Ly args) "mesh" in
  let data_dir := path_join (path_join (arg_resources_dir args) "datasets")
                    (arg_name_dir args) in
  exists ck_train ck_test,
    files w' !! path_join data_dir "train_data.h5" = Some ck_train
    /\ files w' !! path_join data_dir "test_data.h5" = Some ck_test
    /\ ck_attrs ck_train = [("ntrain", arg_ntrain args)]
    /\ ck_attrs ck_test = [("ntest", 1)]
    /\ ck_meshes ck_train = [mesh]
    /\ ck_meshes ck_test = [mesh]
    /\ global_mesh w' = Some mesh.
Proof.
  intros E mesh data_dir.
  destruct (main_Ok_args args w w' E) as (Hf & Hn & Hnt).
  rewrite main_unfold, Hf, Hn in E. fold mesh data_dir in E.
  set (V := mkFunctionSpace mesh "CG" (arg_degree args)) in E.
  set (w0 := set_global_mesh (Some mesh) w) in E.
  destruct (default_stages_data V (arg_ntrain args) (arg_scale_noise args) 1234 w0)
    as (ks & w1 & us & w2 & w3 & Hks & Hus & Hobs & _ & _ & _ & _ & _ & _ & _ & _ & Hgm).
  pose proof E as E2.
  rewrite (generate_data_after_forward V data_dir (arg_ntrain args) (Str "poisson")
             (Str "normal") (arg_scale_noise args) 1234 w0 ks w1 us w2 Hks Hus) in E2.
  apply after_forward_frame in E2 as (uo & w3' & Hobs' & _ & _ & Hg & _).
  rewrite Hobs in Hobs'. injection Hobs' as <- <-.
  apply generate_data_Ok in E as (_ & E).
  destruct E as (ks' & w1' & us' & w2' & uos & w3' & ks_tr & k_te & us_tr & u_te
                 & uo_tr & uo_te & m & Hks' & Hus' & Hobs' & _ & _ & _
                 & Hm & _ & Htr & Hte).
  rewrite Hks in Hks'. injection Hks' as <- <-.
  rewrite Hus in Hus'. injection Hus' as <- <-.
  rewrite Hobs in Hobs'. injection Hobs' as <- <-.
  assert (m = mesh) as -> by (rewrite Hgm in Hm; subst w0; simpl in Hm; congruence).
  eexists. eexists.
  split; [exact Htr|]. split; [exact Hte|].
  repeat split. congruence.
Qed.

(** X13: whatever the data directory, train_data.h5 and test_data.h5 get
    different paths, so that writing the test file cannot overwrite the
    training file. *)
Theorem train_and_test_files_are_distinct (data_dir : string) :
  path_join data_dir "train_data.h5" <> path_join data_dir "test_data.h5".
Proof. apply train_test_paths_differ. Qed.

(** ** What a save that fails leaves behind *)

Lemma appends_ret {A : Type} path (a : A) : appends path (fun _ => []) (ret a).
Proof.
  intros w r w' E. unfold ret in E. injection E as <- <-.
  exists []. split; [apply saved_refl | reflexivity].
Qed.

Lemma appends_bind {A B : Type} path full1 full2 (c : M A) (k : A -> M B) :
  appends path full1 c ->
  (forall a, appends path full2 (k a)) ->
  appends path (fun h => full1 h ++ full2 h) (bind c k).
Proof.
  intros H1 H2 w r w' E. unfold bind in E.
  destruct (c w) as [[a|e] w1] eqn:E1.
  - destruct (H1 _ _ _ E1) as (es1 & S1 & ->).
    destruct (H2 a _ _ _ E) as (es2 & S2 & Hes2).
    pose proof S1 as (Hh & _). rewrite Hh in Hes2.
    exists (full1 (heap w) ++ es2). split; [exact (saved_trans _ _ _ _ _ _ S1 S2)|].
    destruct r; [now rewrite Hes2 | now apply prefix_app].
  - injection E as <- <-.
    destruct (H1 _ _ _ E1) as (es1 & S1 & Hes1).
    exists es1. split; [exact S1 | now apply prefix_app_r].
Qed.

Lemma appends_save_function path l idx name :
  appends path (fun h => [(name, idx, dat_of h l)]) (save_function path l idx name).
Proof.
  intros w r w' E. destruct r as [[]|e].
  - apply save_function_Ok in E as [S _]. eexists. split; [exact S | reflexivity].
  - rewrite save_function_run in E.
    destruct (heap w !! l); [discriminate|]. injection E as _ <-.
    exists []. split; [apply saved_refl | apply prefix_nil].
Qed.

Lemma appends_save_sample path s :
  appends path (fun h => sample_entries h s) (save_sample path s tt).
Proof.
  destruct s as (i & k & u & uo). unfold save_sample.
  apply (appends_bind path (fun h => [("k", i, dat_of h k)])
           (fun h => [("u", i, dat_of h u); ("u_obs", i, dat_of h uo)])).
  { apply appends_save_function. }
  intros _.
  apply (appends_bind path (fun h => [("u", i, dat_of h u)])
           (fun h => [("u_obs", i, dat_of h uo)])).
  { apply appends_save_function. }
  intros _. apply appends_save_function.
Qed.

Lemma appends_save_loop path : forall xs : list (nat * (loc * (loc * loc))),
  appends path (fun h => flat_map (sample_entries h) xs)
    (for_in xs (save_sample path) tt).
Proof.
  induction xs as [|x xs IH].
  - apply (appends_ret path tt).
  - cbn [for_in].
    apply (appends_bind path (fun h => sample_entries h x)
             (fun h => flat_map (sample_entries h) xs)).
    + apply appends_save_sample.
    + intros []. exact IH.
Qed.

(** X14: however [save_train]'s part of the run ends (it returns, [mesh] is
    unbound, or an object to save is not a function), train_data.h5 exists
    afterwards and holds nothing of what it held before: its attributes are
    exactly [ntrain], its meshes are the global [mesh] if one is bound and
    none otherwise, and its functions are the entries written before the
    run ended, the first ones of a complete save (all of them if it
    returned, none if [mesh] is unbound, when [NameError] is raised); no
    other file has changed: a failure is not rolled back. *)
Theorem save_train_truncates data_dir ntrain ks us uos w r w' :
  save_train data_dir ntrain ks us uos w = (r, w') ->
  let full := flat_map (sample_entries (heap w))
                (enumerate (zip ks (zip us uos))) in
  (exists es,
     files w' !! train_path data_dir
     = Some (mkCheckpoint [("ntrain", ntrain)]
               (match global_mesh w with Some m => [m] | None => [] end) es)
     /\ es `prefix_of` full
     /\ (r = Ok tt -> es = full))
  /\ (global_mesh w = None ->
      r = Raise (NameError "mesh")
      /\ files w' !! train_path data_dir
         = Some (mkCheckpoint [("ntrain", ntrain)] [] []))
  /\ forall p, p <> train_path data_dir -> files w' !! p = files w !! p.
Proof.
  intros E full.
  assert (Hunbound : global_mesh w = None ->
            r = Raise (NameError "mesh")
            /\ files w' !! train_path data_dir
               = Some (mkCheckpoint [("ntrain", ntrain)] [] [])).
  { intros Hm. rewrite (save_train_unbound _ _ _ _ _ _ Hm) in E.
    injection E as <- <-. split; [reflexivity|].
    unfold opened, update_file. cbn [files emit set_files].
    rewrite lookup_alter_eq, lookup_insert_eq. reflexivity. }
  split; [|split; [exact Hunbound|]].
  - destruct (global_mesh w) as [m|] eqn:Hm.
    + revert E. unfold save_train. fold (train_path data_dir).
      set (path := train_path data_dir).
      unfold open_w, set_attr, read_global_mesh, save_mesh, modify.
      unfold bind at 1 2 3 4.
      cbn [global_mesh emit update_file set_files]. rewrite Hm.
      intros E.
      destruct (header_written path "ntrain" ntrain m w) as (Hh & _ & Hf & _).
      cbv zeta in Hh, Hf.
      destruct (appends_save_loop path _ _ _ _ E) as (es & (_ & _ & Hes & _) & Hr).
      rewrite Hf in Hes. rewrite Hh in Hr. exists es.
      split; [exact Hes|]. destruct r as [[]|e].
      * subst es. split; [reflexivity | auto].
      * split; [exact Hr | discriminate].
    + destruct (Hunbound eq_refl) as [-> Hf]. exists [].
      split; [exact Hf|]. split; [apply prefix_nil | discriminate].
  - apply save_train_touches_only in E as (_ & _ & _ & F). exact F.
Qed.

End Properties.

(** * The generator on concrete inputs *)

Section Runs.
Import Toy.

(** The [__main__] block binds [mesh] before it calls [generate_data]. *)
Lemma main_binds_mesh (args : Args) (w : World) :
  exists m V data_dir,
    main args w
    = generate_data V data_dir (arg_ntrain args) 1 (Str (arg_forward args))
        (Str (arg_noise args)) (arg_scale_noise args) 1234
        (set_global_mesh (Some m) w).
Proof. do 3 eexists. reflexivity. Qed.

Lemma main_succeeds : fst (main small_args unbound) = Ok tt.
Proof. vm_compute. reflexivity. Qed.

(** *** C1 *)


(** *** C2 *)

Lemma generate_data_rejects_ntest_witness :
  small_run 2 (Str "poisson") (Str "normal") unbound
  = (Raise (NotImplementedError msg_ntest), unbound).
Proof. apply generate_data_rejects_ntest. lia. Defined.

(** *** C3 *)

(** With two test samples asked for, an unknown forward name is answered by
    the message about [ntest], which names no forward problem; and with one
    test sample, an array, which is neither the string poisson nor callable,
    is answered by the [ValueError] of its comparison. *)
Lemma unknown_forward_with_two_tests :
  unknown_selector "poisson" (Str "unknown_pde" : selector forward_callable)
  /\ fst (small_run 2 (Str "unknown_pde") (Str "normal") unbound)
     = Raise (NotImplementedError msg_ntest)
  /\ is_substring "poisson" msg_ntest = false
  /\ is_substring "callable" msg_ntest = false
  /\ fst (small_run 1 array_like (Str "normal") unbound)
     = Raise (ValueError ambiguous_truth_value).
Proof.
  split; [discriminate|]. split; [reflexivity|].
  repeat split; vm_compute; reflexivity.
Qed.

Lemma generate_data_unknown_forward_witness :
  fst (small_run 1 (Str "unknown_pde") (Str "normal") unbound)
  = Raise (NotImplementedError msg_forward).
Proof.
  destruct (generate_data_unknown_forward (Collab := toy) 2%nat "out" 2 (Str "unknown_pde")
              (Str "normal") 3 1234 unbound ltac:(discriminate))
    as (ks & w' & _ & E & _).
  rewrite E. reflexivity.
Defined.

(** *** C4 *)

(** A forward callable that returns one solution only: the run succeeds and
    the training file, declared to hold two samples, holds none. *)
Lemma short_forward_empties_training_file :
  let r := small_run 1 (Callable first_only) (Str "normal") bound in
  fst r = Ok tt
  /\ exists ck,
       files (snd r) !! train_path "out" = Some ck
       /\ ck_attrs ck = [("ntrain", 2)]
       /\ ck_functions ck = []
       /\ ~ holds_samples ck (Z.to_nat 2).
Proof.
  cbv zeta. split; [vm_compute; reflexivity|].
  exists (@mkCheckpoint toy [("ntrain", 2)] [(2, 2)] []).
  split; [vm_compute; reflexivity|].
  split; [reflexivity|]. split; [reflexivity|].
  unfold holds_samples. simpl. discriminate.
Qed.

Lemma generate_data_split_sizes_witness :
  let r := small_run 1 (Str "poisson") (Str "normal") bound in
  fst r = Ok tt
  /\ exists ck, files (snd r) !! train_path "out" = Some ck
       /\ holds_samples ck 2.
Proof.
  cbv zeta.
  assert (F : fst (small_run 1 (Str "poisson") (Str "normal") bound) = Ok tt)
    by (vm_compute; reflexivity).
  split; [exact F|].
  destruct (generate_data_split_sizes _ _ _ _ _ _ _ _ (run_of_fst _ _ F))
    as (_ & ks & w1 & us & w2 & uo & w3 & k & u & o & ck & ck' & _ & _ & _ & _
        & _ & _ & Htr & _ & Hs & _).
  exists ck. split; [exact Htr | exact Hs].
Defined.

(** *** C7 *)

Lemma random_field_scaled_mode_sum_witness :
  exists ks w',
    random_field 2%nat 3 15 14 1234 unbound = (Ok ks, w')
    /\ length ks = 3%nat.
Proof.
  destruct (random_field_scaled_mode_sum (Collab := toy) 2%nat 3 15 14 1234 unbound ltac:(lia))
    as (ks & w' & E & H).
  exists ks, w'. split; [exact E|].
  exact (Forall2_length _ _ _ H).
Defined.

(** *** C9 *)

(** With an unknown forward name as well, [NotImplementedError] is raised
    although no problem has been solved; and with the built-in forward
    problem, an array as [noise], which is neither the string normal nor
    callable, is answered by the [ValueError] of its comparison. *)
Lemma unknown_noise_after_unknown_forward :
  let r := small_run 1 (Str "unknown_pde") (Str "bogus") unbound in
  unknown_selector "normal" (Str "bogus" : selector noise_callable)
  /\ fst r = Raise (NotImplementedError msg_forward)
  /\ solve_calls (log (snd r)) = []
  /\ fst (small_run 1 (Str "poisson") array_like unbound)
     = Raise (ValueError ambiguous_truth_value).
Proof.
  cbv zeta. split; [discriminate|].
  repeat split; vm_compute; reflexivity.
Qed.

Lemma generate_data_unknown_noise_witness :
  exists (ks : list loc) w',
    small_run 1 (Str "poisson") (Str "bogus") unbound
    = (Raise (NotImplementedError msg_noise), w')
    /\ Z.of_nat (length ks) = 3
    /\ files w' = files unbound.
Proof.
  destruct (generate_data_unknown_noise (Collab := toy) 2%nat "out" 2
              (Str "bogus") 3 1234 unbound ltac:(lia) ltac:(discriminate))
    as (ks & us & es & f & w' & E & Hk & _ & _ & _ & Hfs).
  exists ks, w'. split; [exact E|]. split; [exact Hk | exact Hfs].
Defined.

(** *** C10 *)



(** *** Further properties *)

Lemma random_field_without_modes_witness :
  random_field (Collab := toy) 2%nat 3 0 14 1234 unbound
  = (Raise ZeroDivisionError, unbound).
Proof. apply random_field_without_modes. lia. Defined.

Lemma random_field_nothing_asked_witness :
  random_field (Collab := toy) 2%nat (-1) 0 14 1234 unbound = (Ok [], unbound).
Proof. apply random_field_nothing_asked. lia. Defined.

Lemma random_field_allocates_witness :
  exists ks w',
    random_field (Collab := toy) 2%nat 3 15 14 1234 unbound = (Ok ks, w')
    /\ length ks = 3%nat /\ NoDup ks.
Proof.
  destruct (random_field_allocates (Collab := toy) 2%nat 3 15 14 1234 unbound
              ltac:(lia)) as (ks & w' & E & L & N & _).
  exists ks, w'. auto.
Defined.

Lemma generate_data_negative_ntrain_witness :
  fst (generate_data (Collab := toy) 2%nat "out" (-1) 1 (Str "poisson")
         (Str "normal") 3 1234 bound)
  = Raise (ValueError "not enough values to unpack (expected at least 1, got 0)").
Proof.
  destruct (generate_data_negative_ntrain (Collab := toy) 2%nat "out" (-1) 3
              1234 bound ltac:(lia)) as (w' & E & _).
  rewrite E. reflexivity.
Defined.

Lemma generate_data_sample_order_witness :
  let r := small_run 1 (Str "poisson") (Str "normal") bound in
  exists ck, files (snd r) !! train_path "out" = Some ck
             /\ load_function ck "k" 2 = None.
Proof.
  cbv zeta.
  assert (F : fst (small_run 1 (Str "poisson") (Str "normal") bound) = Ok tt)
    by (vm_compute; reflexivity).
  destruct (generate_data_sample_order _ _ _ _ _ _ _ _ (run_of_fst _ _ F))
    as (ks & w1 & us & w2 & uo & w3 & ck & ck' & _ & _ & _ & Htr & _ & _ & Hn & _).
  exists ck. split; [exact Htr|]. apply Hn. vm_compute. lia.
Defined.

Lemma generate_data_default_saves_fields_witness :
  let r := small_run 1 (Str "poisson") (Str "normal") bound in
  exists ck, files (snd r) !! test_path "out" = Some ck
             /\ is_Some (load_function ck "k" 0).
Proof.
  cbv zeta.
  assert (F : fst (small_run 1 (Str "poisson") (Str "normal") bound) = Ok tt)
    by (vm_compute; reflexivity).
  destruct (generate_data_default_saves_fields _ _ _ _ _ _ _ (run_of_fst _ _ F))
    as (ck & ck' & _ & Hte & H).
  exists ck'. split; [exact Hte|].
  destruct (lookup_lt_is_Some_2
              (field_exprs (Collab := toy) (flit 14 (-1)) 15 (S (Z.to_nat 2))
                 (default_rng 1234)) 2%nat) as [e He].
  { rewrite length_field_exprs. vm_compute. lia. }
  destruct (H 2%nat e He) as [_ H2]. rewrite H2 by reflexivity. eauto.
Defined.


Lemma generate_data_default_frame_witness :
  let r := small_run 1 (Str "poisson") (Str "normal") bound in
  global_mesh (snd r) = global_mesh bound
  /\ files (snd r) !! "elsewhere" = files bound !! "elsewhere".
Proof.
  cbv zeta.
  assert (F : fst (small_run 1 (Str "poisson") (Str "normal") bound) = Ok tt)
    by (vm_compute; reflexivity).
  destruct (generate_data_default_frame _ _ _ _ _ _ _ (run_of_fst _ _ F))
    as (Hf & _ & Hg & _).
  split; [exact Hg|]. apply Hf.
  - intros E. vm_compute in E. discriminate.
  - intros E. vm_compute in E. discriminate.
Defined.

Lemma normal_noise_adds_scaled_draws_witness :
  exists w',
    observations (Collab := toy) 2%nat (Str "normal") 3 [0; 1]%nat two_functions
    = (Ok [0; 1]%nat, w')
    /\ files w' = files two_functions.
Proof.
  destruct (normal_noise_adds_scaled_draws (Collab := toy) 2%nat 3 [0; 1]%nat
              two_functions) as (w' & E & _ & _ & _ & Hfs).
  - apply NoDup_cons. split; [|apply NoDup_singleton].
    rewrite list_elem_of_singleton. discriminate.
  - repeat constructor; eexists; (split; [vm_compute; reflexivity | reflexivity]).
  - exists w'. split; [exact E | exact Hfs].
Defined.

Lemma main_writes_mesh_and_counts_witness :
  global_mesh (snd (main small_args unbound)) = Some (1, 1).
Proof.
  assert (F : fst (main small_args unbound) = Ok tt) by (vm_compute; reflexivity).
  destruct (main_writes_mesh_and_counts small_args unbound _ (run_of_fst _ _ F))
    as (ck & ck' & _ & _ & _ & _ & _ & _ & Hg).
  exact Hg.
Defined.


Lemma save_train_truncates_witness :
  let r := save_train (Collab := toy) "out" 2 [0; 1]%nat [0; 5]%nat [1; 1]%nat
             stale in
  files stale !! train_path "out" = Some earlier_train
  /\ fst r = Raise AttributeError
  /\ (exists es,
        files (snd r) !! train_path "out"
        = Some (@mkCheckpoint toy [("ntrain", 2)] [(2, 2)] es)
        /\ es `prefix_of`
             flat_map (sample_entries (heap stale))
               (enumerate (zip [0; 1]%nat (zip [0; 5]%nat [1; 1]%nat))))
  /\ files (snd r) !! "out/notes.h5" = Some notes.
Proof.
  cbv zeta.
  split; [vm_compute; reflexivity|].
  split; [vm_compute; reflexivity|].
  destruct (save_train_truncates (Collab := toy) "out" 2 [0; 1]%nat [0; 5]%nat
              [1; 1]%nat stale _ _ (surjective_pairing _))
    as ((es & Hf & Hp & _) & _ & Ho).
  split.
  - exists es. split; [exact Hf | exact Hp].
  - rewrite Ho; [vm_compute; reflexivity | vm_compute; discriminate].
Defined.


End Runs.

(** * The tape lifecycle of the coupling tests *)

Module HarnessProperties.
Import Harness.

Lemma run_tests_calls : forall (ts : list test) (s : Session),
  snd (run_tests ts s) = snd s ++ replicate (length ts) ClearTape.
Proof.
  induction ts as [|t ts IH]; intros s; simpl.
  - now rewrite app_nil_r.
  - unfold run_tests in IH. rewrite IH. simpl. now rewrite <- app_assoc.
Qed.

Lemma tape_cleared_after_each_test : forall (ts : list test) (s : Session),
  Forall (fun s' => tape (fst s') = []) (states_after_tests ts s).
Proof.
  induction ts as [|t ts IH]; intros s; simpl; constructor; auto.
Qed.

Lemma set_up_annotating (a : Adjoint) : annotating (fst (set_up a)) = true.
Proof. unfold set_up. destruct a as [[|] tp]; reflexivity. Qed.

Lemma run_module_unfold (ts : list test) (a : Adjoint) :
  ts <> [] ->
  run_module ts a
  = let s := run_tests ts (set_up a) in
    if annotating (fst s) then pause_annotation s else s.
Proof. destruct ts; [contradiction | reflexivity]. Qed.

(** When no test of the module runs, pyadjoint is left alone. *)
Lemma run_module_without_tests (a : Adjoint) : run_module [] a = (a, []).
Proof. reflexivity. Qed.

(** C5, amended: in a module of which at least one test runs, the
    module-scoped fixture enables annotation exactly when it finds it off,
    every test is followed by one clearing of the tape, which leaves the tape
    empty, and at the end of the module annotation is paused whenever it is
    on at that point, whether the fixture or somebody else had turned it on;
    such a module always ends with annotation off. *)
Theorem tape_lifecycle (ts : list test) (a : Adjoint) :
  ts <> [] ->
  let s := run_tests ts (set_up a) in
  snd (run_module ts a)
  = (if annotating a then [] else [ContinueAnnotation])
    ++ replicate (length ts) ClearTape
    ++ (if annotating (fst s) then [PauseAnnotation] else [])
  /\ Forall (fun s' => tape (fst s') = []) (states_after_tests ts (set_up a))
  /\ annotating (fst (run_module ts a)) = false.
Proof.
  intros Hts. cbv zeta. rewrite (run_module_unfold ts a Hts). cbv zeta.
  pose proof (run_tests_calls ts (set_up a)) as Hc.
  split; [|split].
  - destruct (annotating (fst (run_tests ts (set_up a)))); simpl; rewrite Hc;
      unfold set_up; destruct (annotating a); simpl;
      rewrite ?app_nil_r, <- ?app_assoc; reflexivity.
  - apply tape_cleared_after_each_test.
  - destruct (annotating (fst (run_tests ts (set_up a)))) eqn:E;
      [reflexivity | exact E].
Qed.

(** A module that finds annotation on, and whose only test leaves it on, does
    pause it at the end. *)
Lemma foreign_annotation_is_paused :
  annotating already_on = true
  /\ snd (run_module [idle] already_on) = [ClearTape; PauseAnnotation]
  /\ annotating (fst (run_module [idle] already_on)) = false.
Proof. repeat split. Qed.

Lemma tape_lifecycle_witness :
  snd (run_module [idle] (mkAdjoint false [7%nat]))
  = [ContinueAnnotation; ClearTape; PauseAnnotation]
  /\ annotating (fst (run_module [idle] (mkAdjoint false [7%nat]))) = false.
Proof.
  destruct (tape_lifecycle [idle] (mkAdjoint false [7%nat]) ltac:(discriminate))
    as (H1 & _ & H3).
  split; [exact H1 | exact H3].
Defined.

Lemma run_tests_switch : forall (ts : list test) (s : Session),
  Forall preserves_switch ts ->
  annotating (fst (run_tests ts s)) = annotating (fst s)
  /\ Forall (fun s' => annotating (fst s') = annotating (fst s))
            (states_after_tests ts s).
Proof.
  induction ts as [|t ts IH]; intros s Hts; simpl.
  - split; [reflexivity | constructor].
  - pose proof (Forall_inv Hts) as Ht.
    destruct (IH (handle_taping t s) (Forall_inv_tail Hts)) as [H1 H2].
    assert (E : annotating (fst (handle_taping t s)) = annotating (fst s)).
    { unfold handle_taping, clear_tape, run_test. simpl. apply Ht. }
    rewrite E in H1, H2. split; [exact H1|].
    constructor; [exact E | exact H2].
Qed.

(** X15: if at least one test of the module runs and no test changes the
    annotation switch, then every test ends with annotation on and an empty
    tape, and the fixtures' calls are: one [continue_annotation] if
    annotation was off at the start, one [clear_tape] per test, and one final
    [pause_annotation]. *)
Theorem switch_preserving_tests (ts : list test) (a : Adjoint) :
  ts <> [] ->
  Forall preserves_switch ts ->
  Forall (fun s' => annotating (fst s') = true /\ tape (fst s') = [])
         (states_after_tests ts (set_up a))
  /\ snd (run_module ts a)
     = (if annotating a then [] else [ContinueAnnotation])
       ++ replicate (length ts) ClearTape ++ [PauseAnnotation].
Proof.
  intros Hne Hts.
  destruct (run_tests_switch ts (set_up a) Hts) as [H1 H2].
  rewrite set_up_annotating in H1, H2.
  split.
  - pose proof (tape_cleared_after_each_test ts (set_up a)) as H3.
    rewrite Forall_forall in *. intros s' Hs'. split; auto.
  - rewrite (run_module_unfold ts a Hne). cbv zeta. rewrite H1. simpl.
    rewrite run_tests_calls. unfold set_up.
    destruct (annotating a); simpl; rewrite <- ?app_assoc; reflexivity.
Qed.

Lemma switch_preserving_tests_witness :
  snd (run_module [idle; idle] already_on)
  = [ClearTape; ClearTape; PauseAnnotation].
Proof.
  apply (switch_preserving_tests [idle; idle] already_on).
  - discriminate.
  - repeat constructor.
Defined.


End HarnessProperties.
